(** * The masking editor of [src/components/ImageStudio.tsx]

    A shallow embedding of the [MaskingEditor] component: the two stacked
    canvases, the stroke handlers, [clearMask], [invertMask], [handleSave]
    and [resizeCanvases], over a model of the part of the Canvas 2D API the
    component calls.

    The canvas model follows the HTML standard's drawing model: a canvas
    owns a bitmap of 8-bit RGBA pixels (kept premultiplied by alpha, as
    browsers do), every drawing call renders a source layer, multiplies it by
    [globalAlpha] and composites it on the bitmap with the current
    [globalCompositeOperation]. *)

From Stdlib Require Import ZArith QArith Qround List Bool Lia Lqa.
From Stdlib Require Ascii String Permutation.
Import ListNotations.
Local Open Scope Z_scope.

(** ** Pixel arithmetic *)

Module Pixel.

(** One pixel, four channels, each a byte held in [Z]. *)
Record RGBA : Type := mkRGBA { red : Z; green : Z; blue : Z; alpha : Z }.

Definition transparent : RGBA := mkRGBA 0 0 0 0.
Definition white : RGBA := mkRGBA 255 255 255 255.
Definition black : RGBA := mkRGBA 0 0 0 255.
(** The CSS colour ['red'] used for [fillStyle] and [strokeStyle]. *)
Definition css_red : RGBA := mkRGBA 255 0 0 255.

(** Product of two bytes read as fractions of 255, rounded to nearest. *)
Definition mul255 (a b : Z) : Z := (a * b + 127) / 255.

(** A [globalAlpha] in [0,1] as a byte: 0.5 becomes 128. *)
Definition alpha8 (q : Q) : Z := Qfloor (q * 255 + (1 # 2))%Q.

Definition scale (k : Z) (p : RGBA) : RGBA :=
  mkRGBA (mul255 (red p) k) (mul255 (green p) k) (mul255 (blue p) k)
         (mul255 (alpha p) k).

Definition plus (p q : RGBA) : RGBA :=
  mkRGBA (red p + red q) (green p + green q) (blue p + blue q)
         (alpha p + alpha q).

(** Straight (ImageData) to premultiplied (bitmap) and back. *)
Definition premultiply (p : RGBA) : RGBA :=
  mkRGBA (mul255 (red p) (alpha p)) (mul255 (green p) (alpha p))
         (mul255 (blue p) (alpha p)) (alpha p).

Definition undiv (c a : Z) : Z := (c * 255 + a / 2) / a.

Definition unpremultiply (p : RGBA) : RGBA :=
  if alpha p =? 0 then transparent
  else mkRGBA (undiv (red p) (alpha p)) (undiv (green p) (alpha p))
              (undiv (blue p) (alpha p)) (alpha p).

(** A premultiplied pixel of bytes: colour never exceeds alpha. *)
Definition wf_pixelb (p : RGBA) : bool :=
  (0 <=? red p) && (red p <=? alpha p) &&
  (0 <=? green p) && (green p <=? alpha p) &&
  (0 <=? blue p) && (blue p <=? alpha p) &&
  (0 <=? alpha p) && (alpha p <=? 255).

Definition wf_pixel (p : RGBA) : Prop := wf_pixelb p = true.

Inductive CompositeOp : Type := SourceOver | DestinationOut | SourceIn.

(** Porter-Duff operators on premultiplied pixels: [s] is the source layer
    (already multiplied by [globalAlpha]), [d] the bitmap. *)
Definition composite (op : CompositeOp) (s d : RGBA) : RGBA :=
  match op with
  | SourceOver => plus s (scale (255 - alpha s) d)
  | DestinationOut => scale (255 - alpha s) d
  | SourceIn => scale (alpha d) s
  end.

Arguments mul255 : simpl never.
Arguments alpha8 : simpl never.
Arguments scale : simpl never.
Arguments premultiply : simpl never.
Arguments unpremultiply : simpl never.
Arguments composite : simpl never.

End Pixel.
Import Pixel.

(** ** Canvas 2D *)

Module Canvas2D.

Inductive LineCap : Type := CapButt | CapRound | CapSquare.
Inductive LineJoin : Type := JoinMiter | JoinRound | JoinBevel.

(** The drawing state of a [CanvasRenderingContext2D], the attributes the
    component sets. *)
Record Context2D : Type := mkContext2D {
  globalAlpha : Q;
  globalCompositeOperation : CompositeOp;
  fillStyle : RGBA;
  strokeStyle : RGBA;
  lineWidth : Z;
  lineCap : LineCap;
  lineJoin : LineJoin
}.

Definition default_context : Context2D :=
  mkContext2D 1 SourceOver black black 1 CapButt JoinMiter.

(** An [HTMLCanvasElement].  [contextAvailable] tells whether
    [getContext('2d')] returns a context or [null]; [rect_left] and
    [rect_top] are the corner of [getBoundingClientRect()]. *)
Record Canvas : Type := mkCanvas {
  width : Z;
  height : Z;
  bitmap : list RGBA;
  state : Context2D;
  contextAvailable : bool;
  rect_left : Q;
  rect_top : Q
}.

(** What [getImageData] returns and [putImageData] takes: straight-alpha
    pixels, one [RGBA] for each group of four bytes of [data]. *)
Record ImageData : Type := mkImageData {
  iwidth : Z;
  iheight : Z;
  data : list RGBA
}.

Inductive DOMException : Type := IndexSizeError | InvalidStateError.

Inductive Completion (A : Type) : Type :=
| Normal (a : A)
| Throw (e : DOMException).
Arguments Normal {A} a.
Arguments Throw {A} e.

Definition blank (w h : Z) : list RGBA := repeat transparent (Z.to_nat (w * h)).

(** [document.createElement('canvas')]: 300 by 150, transparent. *)
Definition createElement_canvas : Canvas :=
  mkCanvas 300 150 (blank 300 150) default_context true 0 0.

(** Assigning [canvas.width] or [canvas.height] clears the bitmap and resets
    the drawing state. *)
Definition set_width (w : Z) (c : Canvas) : Canvas :=
  mkCanvas w (height c) (blank w (height c)) default_context
           (contextAvailable c) (rect_left c) (rect_top c).

Definition set_height (h : Z) (c : Canvas) : Canvas :=
  mkCanvas (width c) h (blank (width c) h) default_context
           (contextAvailable c) (rect_left c) (rect_top c).

Definition with_bitmap (bm : list RGBA) (c : Canvas) : Canvas :=
  mkCanvas (width c) (height c) bm (state c) (contextAvailable c)
           (rect_left c) (rect_top c).

Definition with_state (s : Context2D) (c : Canvas) : Canvas :=
  mkCanvas (width c) (height c) (bitmap c) s (contextAvailable c)
           (rect_left c) (rect_top c).

Definition set_globalAlpha (a : Q) (c : Canvas) : Canvas :=
  let s := state c in
  with_state (mkContext2D a (globalCompositeOperation s) (fillStyle s)
                (strokeStyle s) (lineWidth s) (lineCap s) (lineJoin s)) c.

Definition set_globalCompositeOperation (op : CompositeOp) (c : Canvas) : Canvas :=
  let s := state c in
  with_state (mkContext2D (globalAlpha s) op (fillStyle s)
                (strokeStyle s) (lineWidth s) (lineCap s) (lineJoin s)) c.

Definition set_fillStyle (col : RGBA) (c : Canvas) : Canvas :=
  let s := state c in
  with_state (mkContext2D (globalAlpha s) (globalCompositeOperation s) col
                (strokeStyle s) (lineWidth s) (lineCap s) (lineJoin s)) c.

Definition set_strokeStyle (col : RGBA) (c : Canvas) : Canvas :=
  let s := state c in
  with_state (mkContext2D (globalAlpha s) (globalCompositeOperation s)
                (fillStyle s) col (lineWidth s) (lineCap s) (lineJoin s)) c.

Definition set_lineWidth (w : Z) (c : Canvas) : Canvas :=
  let s := state c in
  with_state (mkContext2D (globalAlpha s) (globalCompositeOperation s)
                (fillStyle s) (strokeStyle s) w (lineCap s) (lineJoin s)) c.

Definition set_lineCap (k : LineCap) (c : Canvas) : Canvas :=
  let s := state c in
  with_state (mkContext2D (globalAlpha s) (globalCompositeOperation s)
                (fillStyle s) (strokeStyle s) (lineWidth s) k (lineJoin s)) c.

Definition set_lineJoin (k : LineJoin) (c : Canvas) : Canvas :=
  let s := state c in
  with_state (mkContext2D (globalAlpha s) (globalCompositeOperation s)
                (fillStyle s) (strokeStyle s) (lineWidth s) (lineCap s) k) c.

(** Pointwise combination of a source layer with the bitmap, both row-major
    at the bitmap's width; the result has the bitmap's length.  The
    component only draws layers that cover the whole bitmap; pixels a
    shorter layer does not reach are kept. *)
Fixpoint zip_layer (f : RGBA -> RGBA -> RGBA) (layer bm : list RGBA) : list RGBA :=
  match bm with
  | [] => []
  | d :: bm' =>
      match layer with
      | [] => d :: bm'
      | s :: layer' => f s d :: zip_layer f layer' bm'
      end
  end.

(** The drawing model: multiply the rendered layer by [globalAlpha], then
    composite it on the bitmap with the current operator. *)
Definition paint (layer : list RGBA) (c : Canvas) : Canvas :=
  let ga := alpha8 (globalAlpha (state c)) in
  let op := globalCompositeOperation (state c) in
  with_bitmap (zip_layer (fun s d => composite op (scale ga s) d) layer (bitmap c)) c.

(** [ctx.fillRect(0, 0, w, h)] with a rectangle that covers the canvas, the
    only way the component calls it: the layer is [fillStyle] everywhere. *)
Definition fillRect_all (c : Canvas) : Canvas :=
  paint (map (fun _ => premultiply (fillStyle (state c))) (bitmap c)) c.

(** [ctx.clearRect(0, 0, canvas.width, canvas.height)]: transparent black
    everywhere, whatever the compositing state. *)
Definition clearRect_all (c : Canvas) : Canvas :=
  with_bitmap (map (fun _ => transparent) (bitmap c)) c.

(** [ctx.drawImage(source, 0, 0)] with a canvas as source, of the size of
    the target as everywhere in the component.  A source canvas with no
    pixels makes the call throw. *)
Definition drawImage (source : Canvas) (c : Canvas) : Completion Canvas :=
  if (width source =? 0) || (height source =? 0) then Throw InvalidStateError
  else Normal (paint (bitmap source) c).

(** [ctx.getImageData(0, 0, canvas.width, canvas.height)]: a copy of the
    bitmap in straight alpha.  A zero width or height makes the call throw. *)
Definition getImageData (c : Canvas) : Completion ImageData :=
  if (width c =? 0) || (height c =? 0) then Throw IndexSizeError
  else Normal (mkImageData (width c) (height c) (map unpremultiply (bitmap c))).

(** [ctx.putImageData(imageData, 0, 0)]: the pixels replace the bitmap's,
    without compositing. *)
Definition putImageData (img : ImageData) (c : Canvas) : Canvas :=
  with_bitmap (zip_layer (fun s _ => premultiply s) (data img) (bitmap c)) c.

(** Representation invariant: the bitmap has [width * height] premultiplied
    byte pixels. *)
Definition wf_canvasb (c : Canvas) : bool :=
  (0 <=? width c) && (0 <=? height c) &&
  (Nat.eqb (length (bitmap c)) (Z.to_nat (width c * height c))) &&
  forallb wf_pixelb (bitmap c).

Definition wf_canvas (c : Canvas) : Prop := wf_canvasb c = true.

End Canvas2D.
Import Canvas2D.

(** ** The component *)

Module MaskingEditor.

Record Point : Type := mkPoint { x : Q; y : Q }.

Record MouseEvent : Type := mkMouseEvent { clientX : Q; clientY : Q }.

(** The container [div]: its [clientWidth] and [clientHeight]. *)
Record Container : Type := mkContainer { clientWidth : Z; clientHeight : Z }.

(** What [onSave] receives: the PNG of the final canvas, named [mask.png].
    PNG is lossless, so the file is held as the pixels it decodes to. *)
Record ImageFile : Type := mkImageFile { base64 : ImageData }.

(** The refs and the state of one mounted [MaskingEditor]. *)
Record Editor : Type := mkEditor {
  containerRef : option Container;
  imageCanvasRef : option Canvas;
  drawingCanvasRef : option Canvas;
  isDrawing : bool;
  lastPos : option Point;
  brushSize : Z;
  isErasing : bool
}.

Definition with_drawingCanvas (c : option Canvas) (st : Editor) : Editor :=
  mkEditor (containerRef st) (imageCanvasRef st) c (isDrawing st) (lastPos st)
           (brushSize st) (isErasing st).

Definition with_imageCanvas (c : option Canvas) (st : Editor) : Editor :=
  mkEditor (containerRef st) c (drawingCanvasRef st) (isDrawing st) (lastPos st)
           (brushSize st) (isErasing st).

Definition with_stroke (d : bool) (p : option Point) (st : Editor) : Editor :=
  mkEditor (containerRef st) (imageCanvasRef st) (drawingCanvasRef st) d p
           (brushSize st) (isErasing st).

(** [ref.current?.getContext('2d')] *)
Definition getContext2d (ref : option Canvas) : option Canvas :=
  match ref with
  | Some c => if contextAvailable c then Some c else None
  | None => None
  end.

(** A freshly created canvas given the size of another one. *)
Definition tempCanvas_like (c : Canvas) : Canvas :=
  set_height (height c) (set_width (width c) createElement_canvas).

(** [toDataURL('image/png')]: the canvas as straight-alpha pixels; a canvas
    with no pixels gives the string ["data:,"], here [None]. *)
Definition toDataURL (c : Canvas) : option ImageData :=
  if (width c =? 0) || (height c =? 0) then None
  else Some (mkImageData (width c) (height c) (map unpremultiply (bitmap c))).

Inductive Exception : Type :=
| DOM (e : DOMException)
| Error_InvalidDataURL.

Inductive Outcome (A : Type) : Type :=
| Returned (a : A)
| Threw (e : Exception).
Arguments Returned {A} a.
Arguments Threw {A} e.

(** [dataURLtoFile]: throws when the URL has no [:mime;] part, as ["data:,"]. *)
Definition dataURLtoFile (dataurl : option ImageData) : Outcome ImageData :=
  match dataurl with
  | None => Threw Error_InvalidDataURL
  | Some png => Returned png
  end.

(** The first loop of [handleSave]: every pixel with alpha above zero
    becomes opaque white. *)
Definition silhouette_loop (d : list RGBA) : list RGBA :=
  map (fun p => if alpha p >? 0 then mkRGBA 255 255 255 255 else p) d.

(** The second loop of [handleSave]: where the silhouette is not
    transparent, the colour channels of the final pixel become 255. *)
Definition final_loop (sourceData finalData : list RGBA) : list RGBA :=
  zip_layer (fun s f => if alpha s >? 0 then mkRGBA 255 255 255 (alpha f) else f)
            sourceData finalData.

Definition with_data (d : list RGBA) (img : ImageData) : ImageData :=
  mkImageData (iwidth img) (iheight img) d.

Definition handleSave (st : Editor) : Editor * Outcome (option ImageFile) :=
  match drawingCanvasRef st with
  | None => (st, Returned None)
  | Some drawingCanvas =>
    let tempCanvas := tempCanvas_like drawingCanvas in
    let ctx := fillRect_all (set_fillStyle black tempCanvas) in
    match getContext2d (Some drawingCanvas) with
    | None => (st, Returned None)
    | Some drawingCtx =>
      match getImageData drawingCtx with
      | Throw e => (st, Threw (DOM e))
      | Normal imageData =>
        let silhouetteCanvas := tempCanvas_like drawingCanvas in
        let imageData := with_data (silhouette_loop (data imageData)) imageData in
        let silhouetteCtx := putImageData imageData silhouetteCanvas in
        match drawImage silhouetteCtx (set_globalCompositeOperation SourceOver ctx) with
        | Throw e => (st, Threw (DOM e))
        | Normal _ =>
          let finalCanvas := tempCanvas_like drawingCanvas in
          let finalCtx := fillRect_all (set_fillStyle black finalCanvas) in
          let finalCtx := set_globalCompositeOperation SourceOver finalCtx in
          match getImageData finalCtx, getImageData silhouetteCtx with
          | Throw e, _ | Normal _, Throw e => (st, Threw (DOM e))
          | Normal finalImageData, Normal source =>
            let finalImageData :=
              with_data (final_loop (data source) (data finalImageData)) finalImageData in
            let finalCtx := putImageData finalImageData finalCtx in
            match dataURLtoFile (toDataURL finalCtx) with
            | Threw e => (st, Threw e)
            | Returned png => (st, Returned (Some (mkImageFile png)))
            end
          end
        end
      end
    end
  end.

Definition clearMask (st : Editor) : Editor :=
  match drawingCanvasRef st with
  | Some canvas =>
      if contextAvailable canvas
      then with_drawingCanvas (Some (clearRect_all canvas)) st
      else st
  | None => st
  end.

Definition invertMask (st : Editor) : Editor * Outcome unit :=
  match drawingCanvasRef st with
  | None => (st, Returned tt)
  | Some canvas =>
    if negb (contextAvailable canvas) then (st, Returned tt) else
    let tempCanvas := tempCanvas_like canvas in
    match drawImage canvas tempCanvas with
    | Throw e => (st, Threw (DOM e))
    | Normal tempCtx =>
      let ctx := clearRect_all canvas in
      let ctx := set_globalCompositeOperation SourceOver ctx in
      let ctx := set_globalAlpha (1 # 2) ctx in
      let ctx := set_fillStyle css_red ctx in
      let ctx := fillRect_all ctx in
      let ctx := set_globalCompositeOperation DestinationOut ctx in
      match drawImage tempCtx ctx with
      | Throw e => (with_drawingCanvas (Some ctx) st, Threw (DOM e))
      | Normal ctx => (with_drawingCanvas (Some ctx) st, Returned tt)
      end
    end
  end.

Definition getMousePos (st : Editor) (e : MouseEvent) : Point :=
  match drawingCanvasRef st with
  | None => mkPoint 0 0
  | Some c => mkPoint (clientX e - rect_left c) (clientY e - rect_top c)
  end.

Definition stopDrawing (st : Editor) : Editor := with_stroke false None st.

(** The pixels an exported mask is made of, written from the specification:
    white where the overlay's alpha is above zero, black elsewhere. *)
Definition binarize (overlay : list RGBA) : list RGBA :=
  map (fun p => if 0 <? alpha p then white else black) overlay.

(** The initial state of an opened editor on canvases not yet sized. *)
Definition mounted (box : Container) : Editor :=
  mkEditor (Some box) (Some createElement_canvas) (Some createElement_canvas)
           false None 40 false.

(** The state setters behind the brush slider and the brush/eraser buttons. *)
Definition setBrushSize (n : Z) (st : Editor) : Editor :=
  mkEditor (containerRef st) (imageCanvasRef st) (drawingCanvasRef st)
           (isDrawing st) (lastPos st) n (isErasing st).

Definition setIsErasing (b : bool) (st : Editor) : Editor :=
  mkEditor (containerRef st) (imageCanvasRef st) (drawingCanvasRef st)
           (isDrawing st) (lastPos st) (brushSize st) b.

(** What the two loops and the three temporary canvases of [handleSave] make
    of one overlay pixel [p]: [src] is the pixel read back from the
    silhouette canvas, [fin] the pixel read from the black final canvas. *)
Definition saved_pixel (p : RGBA) : RGBA :=
  let src :=
    unpremultiply
      (premultiply
         (if alpha (unpremultiply p) >? 0 then mkRGBA 255 255 255 255
          else unpremultiply p)) in
  let fin :=
    unpremultiply
      (composite SourceOver (scale (alpha8 1) (premultiply black)) transparent) in
  unpremultiply
    (premultiply (if alpha src >? 0 then mkRGBA 255 255 255 (alpha fin) else fin)).

(** ['red'] at [globalAlpha = 0.5], as the bitmap holds it. *)
Definition highlight : RGBA := mkRGBA 128 0 0 128.

(** What [invertMask] makes of one overlay pixel [d]: the cleared pixel is
    filled with red at [globalAlpha = 0.5], then [d], drawn from the
    temporary copy under the same [globalAlpha], is punched out of it. *)
Definition inverted_pixel (d : RGBA) : RGBA :=
  composite DestinationOut
    (scale (alpha8 (1 # 2)) (composite SourceOver (scale (alpha8 1) d) transparent))
    (composite SourceOver (scale (alpha8 (1 # 2)) (premultiply css_red)) transparent).

(** The canvas [drawLine] strokes on: the overlay with the brush set up. *)
Definition brush_canvas (st : Editor) (c : Canvas) : Canvas :=
  set_globalCompositeOperation
    (if isErasing st then DestinationOut else SourceOver)
    (set_globalAlpha (1 # 2)
       (set_lineJoin JoinRound
          (set_lineCap CapRound
             (set_lineWidth (brushSize st) (set_strokeStyle css_red c))))).

(** What [maskImg.onload] makes of one pixel [m] of the decoded mask drawn
    at the canvas's size: [m] recoloured red by the ['source-in'] fill, then
    drawn at [globalAlpha = 0.5] on the empty overlay. *)
Definition seeded_pixel (m : RGBA) : RGBA :=
  let temp := composite SourceOver (scale (alpha8 1) (premultiply m)) transparent in
  let temp := composite SourceIn (scale (alpha8 1) (premultiply css_red)) temp in
  composite SourceOver (scale (alpha8 (1 # 2)) temp) transparent.

(** The invariant of the editor: its overlay, when mounted, is a
    well-formed canvas. *)
Definition wf_editor (st : Editor) : Prop :=
  match drawingCanvasRef st with
  | Some c => wf_canvas c
  | None => True
  end.

(** ** States the model is run on *)

Definition canvas_of (w h : Z) (bm : list RGBA) : Canvas :=
  mkCanvas w h bm default_context true 0 0.

(** An editor whose overlay is [c], over a background of the same size. *)
Definition editor_on (c : Canvas) : Editor :=
  mkEditor (Some (mkContainer (width c) (height c)))
           (Some (canvas_of (width c) (height c) (blank (width c) (height c))))
           (Some c) false None 40 false.

(** An editor whose drawing canvas is not mounted. *)
Definition unmounted : Editor := mkEditor None None None false None 40 false.

(** An editor whose drawing canvas gives no 2D context. *)
Definition contextless : Editor :=
  editor_on (mkCanvas 2 1 [transparent; transparent] default_context false 0 0).

(** ** Platform instances used to run the model

    The rasteriser, the image sampler and the rounding of [number]
    arithmetic belong to the browser; the component is modelled over any
    choice of them.  These are simple choices the model can be run on. *)

(** Exact arithmetic: no rounding.  It agrees with binary64 wherever the
    exact result is a binary64 number. *)
Definition fl_exact (q : Q) : Q := q.

(** The unit roundoff of binary64, 2^-53: rounding to nearest moves a
    positive result in the normal range by at most this relative error. *)
Definition unit_roundoff : Q := 1 # 9007199254740992.

(** A range well inside the normal numbers of binary64: from 2^-100 to
    2^100. *)
Definition in_range (x : Q) : Prop :=
  (1 # 1267650600228229401496703205376 <= x /\
   x <= 1267650600228229401496703205376 # 1)%Q.

(** An image drawn at its own size: its pixels, premultiplied. *)
Definition sample_same_size (img : ImageData) (dw dh : Q) (w h : Z) : list RGBA :=
  map premultiply (data img).

(** A brush that covers every pixel of the canvas. *)
Definition cover_all (lw : Z) (cap : LineCap) (join : LineJoin)
    (p q : Point) (w h : Z) (i : nat) : Z := 255.

(** A brush that covers only the first pixel of the canvas. *)
Definition cover_first (lw : Z) (cap : LineCap) (join : LineJoin)
    (p q : Point) (w h : Z) (i : nat) : Z :=
  match i with O => 255 | S _ => 0 end.

Section WithPlatform.

(** Coverage, from 0 to 255, of pixel [i] (row-major) of a [w] by [h] canvas
    by the stroke of a segment with the given line width, cap and join. *)
Variable rasterize :
  Z -> LineCap -> LineJoin -> Point -> Point -> Z -> Z -> nat -> Z.

(** The layer [drawImage(img, 0, 0, dw, dh)] renders on a [w] by [h]
    canvas, premultiplied, row-major. *)
Variable sample : ImageData -> Q -> Q -> Z -> Z -> list RGBA.

(** Rounding of an exact result to a [number] (a binary64 value, itself a
    rational). *)
Variable fl : Q -> Q.

Definition coverage (c : Canvas) (p q : Point) (i : nat) : Z :=
  let s := state c in
  Z.max 0 (Z.min 255
    (rasterize (lineWidth s) (lineCap s) (lineJoin s) p q (width c) (height c) i)).

(** [beginPath(); moveTo(p); lineTo(q); stroke()] *)
Definition stroke (p q : Point) (c : Canvas) : Canvas :=
  paint (map (fun i => scale (coverage c p q i) (premultiply (strokeStyle (state c))))
             (seq 0 (length (bitmap c)))) c.

Definition drawLine (x1 y1 x2 y2 : Q) (st : Editor) : Editor :=
  match getContext2d (drawingCanvasRef st) with
  | None => st
  | Some ctx =>
    let ctx := set_strokeStyle css_red ctx in
    let ctx := set_lineWidth (brushSize st) ctx in
    let ctx := set_lineCap CapRound ctx in
    let ctx := set_lineJoin JoinRound ctx in
    let ctx := set_globalAlpha (1 # 2) ctx in
    let ctx := set_globalCompositeOperation
                 (if isErasing st then DestinationOut else SourceOver) ctx in
    let ctx := stroke (mkPoint x1 y1) (mkPoint x2 y2) ctx in
    with_drawingCanvas (Some ctx) st
  end.

Definition startDrawing (e : MouseEvent) (st : Editor) : Editor :=
  let pos := getMousePos st e in
  let st := with_stroke true (Some pos) st in
  drawLine (x pos) (y pos) (x pos) (y pos) st.

Definition draw (e : MouseEvent) (st : Editor) : Editor :=
  if negb (isDrawing st) then st else
  let pos := getMousePos st e in
  let st :=
    match lastPos st with
    | Some l => drawLine (x l) (y l) (x pos) (y pos) st
    | None => st
    end in
  with_stroke (isDrawing st) (Some pos) st.

(** [number] division and multiplication: the exact result, rounded.  A
    division by zero, [Infinity] or [NaN] in JavaScript, is outside this
    model; the properties of [geometry] are stated for positive sides. *)
Definition fdiv (a b : Q) : Q := fl (a / b).
Definition fmul (a b : Q) : Q := fl (a * b).

(** The conversion applied when a [number] is assigned to [canvas.width]:
    truncation, modulo 2^32. *)
Definition ToUint32 (q : Q) : Z := (Z.quot (Qnum q) (Zpos (Qden q))) mod 2 ^ 32.

(** [canvasWidth] and [canvasHeight] as [img.onload] computes them. *)
Definition geometry (box : Container) (img : ImageData) : Q * Q :=
  let containerWidth := inject_Z (clientWidth box) in
  let containerHeight := inject_Z (clientHeight box) in
  let containerRatio := fdiv containerWidth containerHeight in
  let imgRatio := fdiv (inject_Z (iwidth img)) (inject_Z (iheight img)) in
  if Qlt_le_dec containerRatio imgRatio
  then (containerWidth, fdiv containerWidth imgRatio)
  else (fmul containerHeight imgRatio, containerHeight).

Definition set_size (cw ch : Q) (c : Canvas) : Canvas :=
  set_height (ToUint32 ch) (set_width (ToUint32 cw) c).

(** [ctx.drawImage(img, 0, 0, dw, dh)] with a decoded image as source. *)
Definition drawImage_scaled (img : ImageData) (dw dh : Q) (c : Canvas) : Canvas :=
  paint (sample img dw dh (width c) (height c)) c.

(** The body of [maskImg.onload]. *)
Definition maskImg_onload (maskImg : ImageData) (cw ch : Q) (st : Editor) : Editor :=
  match drawingCanvasRef st with
  | None => st
  | Some drawingCtx =>
    let drawingCtx := set_globalCompositeOperation SourceOver drawingCtx in
    let drawingCtx := set_globalAlpha (1 # 2) drawingCtx in
    let drawingCtx := set_fillStyle css_red drawingCtx in
    let tempCanvas := set_size cw ch createElement_canvas in
    let tempCtx := drawImage_scaled maskImg cw ch tempCanvas in
    let tempCtx := set_globalCompositeOperation SourceIn tempCtx in
    let tempCtx := set_fillStyle css_red tempCtx in
    let tempCtx := fillRect_all tempCtx in
    match drawImage tempCtx drawingCtx with
    | Throw _ => with_drawingCanvas (Some drawingCtx) st
    | Normal drawingCtx => with_drawingCanvas (Some drawingCtx) st
    end
  end.

(** The body of [img.onload], run to the end of [maskImg.onload] when an
    initial mask is given and decodes. *)
Definition img_onload (box : Container) (img : ImageData)
    (initialMask : option ImageData) (st : Editor) : Editor :=
  let '(canvasWidth, canvasHeight) := geometry box img in
  let st := with_imageCanvas
              (option_map (set_size canvasWidth canvasHeight) (imageCanvasRef st)) st in
  let st := with_drawingCanvas
              (option_map (set_size canvasWidth canvasHeight) (drawingCanvasRef st)) st in
  let st :=
    match getContext2d (imageCanvasRef st) with
    | Some imageCtx =>
        with_imageCanvas
          (Some (drawImage_scaled img canvasWidth canvasHeight imageCtx)) st
    | None => st
    end in
  match getContext2d (drawingCanvasRef st), initialMask with
  | Some _, Some maskImg => maskImg_onload maskImg canvasWidth canvasHeight st
  | _, _ => st
  end.

Definition resizeCanvases (img : ImageData) (initialMask : option ImageData)
    (st : Editor) : Editor :=
  match containerRef st, imageCanvasRef st, drawingCanvasRef st with
  | Some container, Some _, Some _ => img_onload container img initialMask st
  | _, _, _ => st
  end.

End WithPlatform.

(** The events of an editing session, each with the handler it runs. *)
Inductive Event : Type :=
| Resize (img : ImageData) (initialMask : option ImageData)
| MouseDown (e : MouseEvent)
| MouseMove (e : MouseEvent)
| MouseUp
| ClickClear
| ClickInvert
| ClickSave
| SlideBrush (n : Z)
| PickEraser (b : bool).

Section Session.

Variable rasterize :
  Z -> LineCap -> LineJoin -> Point -> Point -> Z -> Z -> nat -> Z.
Variable sample : ImageData -> Q -> Q -> Z -> Z -> list RGBA.
Variable fl : Q -> Q.

Definition handle (ev : Event) (st : Editor) : Editor :=
  match ev with
  | Resize img initialMask => resizeCanvases sample fl img initialMask st
  | MouseDown e => startDrawing rasterize e st
  | MouseMove e => draw rasterize e st
  | MouseUp => stopDrawing st
  | ClickClear => clearMask st
  | ClickInvert => fst (invertMask st)
  | ClickSave => fst (handleSave st)
  | SlideBrush n => setBrushSize n st
  | PickEraser b => setIsErasing b st
  end.

(** The state after a session: the events handled in order, from the
    mounted editor. *)
Definition session (box : Container) (evs : list Event) : Editor :=
  fold_left (fun st ev => handle ev st) evs (mounted box).

End Session.

(** An opened editor after [resizeCanvases] on a 2048 by 1 image in a 1024
    by 768 container: [canvasHeight] is 0.5 and the canvases are 1024 by 0. *)
Definition banner_editor : Editor :=
  resizeCanvases sample_same_size fl_exact
    (mkImageData 2048 1 (repeat white 2048)) None
    (mounted (mkContainer 1024 768)).

(** Two canvases at the same place on the page, with the same context
    availability. *)
Definition same_place (a b : Canvas) : Prop :=
  contextAvailable a = contextAvailable b /\
  rect_left a = rect_left b /\ rect_top a = rect_top b.

(** The segments of a polyline from [p] through [ps], each drawn by
    [drawLine]. *)
Fixpoint drawSegments
    (rasterize : Z -> LineCap -> LineJoin -> Point -> Point -> Z -> Z -> nat -> Z)
    (p : Point) (ps : list Point) (st : Editor) : Editor :=
  match ps with
  | [] => st
  | q :: qs =>
      drawSegments rasterize q qs (drawLine rasterize (x p) (y p) (x q) (y q) st)
  end.

Definition clamp_byte (z : Z) : Z := Z.max 0 (Z.min 255 z).

(** A sampler for images drawn at their own size that clamps what it
    decodes to bytes. *)
Definition sample_bytes (img : ImageData) (dw dh : Q) (w h : Z) : list RGBA :=
  map (fun p => premultiply
                  (mkRGBA (clamp_byte (red p)) (clamp_byte (green p))
                          (clamp_byte (blue p)) (clamp_byte (alpha p))))
      (data img).

End MaskingEditor.
Import MaskingEditor.

(** * The studio and the service

    The [ImageStudio] component of the same file, with its list of
    reference images, and the two functions of
    [src/services/geminiService.ts] it calls. *)

(** ** JavaScript strings and arrays

    A string is the sequence of its code units, here code units below 256;
    the functions are those of [String.prototype] and [Array.prototype] the
    components call. *)

Module JS.

Import Ascii String.

Local Open Scope string_scope.

Definition startsWith (s searchString : string) : bool :=
  String.prefix searchString s.

(** [s.split(sep)] with a separator of one character: never empty. *)
Fixpoint split (sep : ascii) (s : string) : list string :=
  match s with
  | EmptyString => [EmptyString]
  | String c r =>
      if Ascii.eqb c sep then EmptyString :: split sep r
      else match split sep r with
           | h :: t => String c h :: t
           | [] => [String c EmptyString]
           end
  end.

(** White space and line terminators, among code units below 256: tab,
    line feed, vertical tab, form feed, carriage return, space, no-break
    space. *)
Definition isWhiteSpace (c : ascii) : bool :=
  let n := nat_of_ascii c in
  ((9 <=? n) && (n <=? 13))%nat || (n =? 32)%nat || (n =? 160)%nat.

Fixpoint trimStart (s : string) : string :=
  match s with
  | EmptyString => EmptyString
  | String c r => if isWhiteSpace c then trimStart r else s
  end.

(** The string without trailing white space: a character is kept when it
    is not white space or something kept follows it. *)
Fixpoint trimEnd (s : string) : string :=
  match s with
  | EmptyString => EmptyString
  | String c r =>
      match trimEnd r with
      | EmptyString => if isWhiteSpace c then EmptyString else String c EmptyString
      | r' => String c r'
      end
  end.

Definition trim (s : string) : string := trimEnd (trimStart s).

(** Truthiness of a string: it is not empty. *)
Definition truthy (s : string) : bool :=
  match s with EmptyString => false | String _ _ => true end.

(** Truthiness of [x?.y] when [y] is a string: defined and not empty. *)
Definition truthy_opt (s : option string) : bool :=
  match s with Some s => truthy s | None => false end.

(** [s.replace(pattern, replacement)] with a string pattern: the first
    occurrence only. *)
Definition replace (pattern replacement s : string) : string :=
  match String.index 0 pattern s with
  | Some i =>
      String.substring 0 i s ++ replacement ++
      String.substring (i + String.length pattern)
                       (String.length s - (i + String.length pattern)) s
  | None => s
  end.

(** [array.filter((x, i) => f(i, x))], from index [i]. *)
Fixpoint filteri {A : Type} (f : nat -> A -> bool) (i : nat) (l : list A) : list A :=
  match l with
  | [] => []
  | a :: l' => if f i a then a :: filteri f (S i) l' else filteri f (S i) l'
  end.

(** [array.splice(start, 1)]: the removed elements and the array left. *)
Definition splice_delete1 {A : Type} (start : nat) (l : list A) : list A * list A :=
  (firstn 1 (skipn start l), (firstn start l ++ skipn (S start) l)%list).

(** [array.splice(start, 0, item)]: a [start] past the end inserts at the
    end. *)
Definition splice_insert {A : Type} (start : nat) (item : A) (l : list A) : list A :=
  (firstn start l ++ item :: skipn start l)%list.

(** [s.charCodeAt(i)] stored in a [Uint8Array]: [NaN], past the end,
    is stored as 0. *)
Definition charCodeAt (s : string) (i : nat) : Z :=
  match String.get i s with
  | Some c => Z.of_nat (nat_of_ascii c) mod 256
  | None => 0
  end.

(** [a[i] = v] on a typed array: nothing happens past the end. *)
Fixpoint array_set (a : list Z) (i : nat) (v : Z) : list Z :=
  match a, i with
  | [], _ => []
  | _ :: a', O => v :: a'
  | x :: a', S i' => x :: array_set a' i' v
  end.

(** Line terminators, which [.] does not match, among code units below
    256. *)
Definition isLineTerminator (c : ascii) : bool :=
  (nat_of_ascii c =? 10)%nat || (nat_of_ascii c =? 13)%nat.

(** The string has no character [c]. *)
Definition lacks (c : ascii) (s : string) : bool :=
  forallb (fun x => negb (Ascii.eqb x c)) (list_ascii_of_string s).

(** The [type] a [File] gets from the [type] option of its constructor:
    the empty string when a character is outside U+0020 to U+007E, and the
    option in ASCII lower case otherwise. *)
Definition toAsciiLower (c : ascii) : ascii :=
  let n := nat_of_ascii c in
  if ((65 <=? n) && (n <=? 90))%nat then ascii_of_nat (n + 32) else c.

Fixpoint map_string (f : ascii -> ascii) (s : string) : string :=
  match s with
  | EmptyString => EmptyString
  | String c r => String (f c) (map_string f r)
  end.

Definition File_type (option_type : string) : string :=
  if forallb (fun c => (32 <=? nat_of_ascii c) && (nat_of_ascii c <=? 126))%nat
       (list_ascii_of_string option_type)
  then map_string toAsciiLower option_type
  else EmptyString.

(** [array.find(f)] *)
Definition find {A : Type} (f : A -> bool) (l : list A) : option A := List.find f l.

End JS.

(** ** The service: [generateOrEditImage] and [enhancePrompt] *)

Module GeminiService.

Import Ascii String.

Local Open Scope string_scope.

(** [{ data, mimeType }]; a field is [None] when it is [undefined]. *)
Record Blob : Type := mkBlob { data : option string; mimeType : option string }.

(** A [Part] of the SDK: inline data, text, or neither. *)
Record Part : Type := mkPart { inlineData : option Blob; text : option string }.

Record SafetyRating : Type := mkSafetyRating {
  category : string;
  probability : string
}.

Record Content : Type := mkContent { parts : option (list Part) }.

Record Candidate : Type := mkCandidate {
  content : option Content;
  finishReason : option string;
  finishMessage : option string;
  safetyRatings : option (list SafetyRating)
}.

Record PromptFeedback : Type := mkPromptFeedback { blockReason : option string }.

Record GenerateContentResponse : Type := mkResponse {
  promptFeedback : option PromptFeedback;
  candidates : option (list Candidate);
  response_text : option string
}.

(** What [await ai.models.generateContent(...)] does: it returns a
    response, throws an [Error] with a message, or throws something else. *)
Inductive ApiOutcome : Type :=
| ApiReturns (response : GenerateContentResponse)
| ApiThrowsError (message : string)
| ApiThrowsOther.

(** A settled promise of a string. *)
Inductive Settled : Type :=
| Resolved (value : string)
| Rejected (reason : string).

(** How the [try] block ends: a value returned, an [Error] thrown, or
    something else thrown. *)
Inductive TryResult : Type :=
| Return (value : string)
| ThrowError (message : string)
| ThrowOther.

(** The image the caller hands over: [base64Data] is [undefined] when the
    data URL it was cut from had no comma. *)
Record InlineImage : Type := mkInlineImage {
  base64Data : option string;
  imageMimeType : string
}.

Definition image_part (img : InlineImage) : Part :=
  mkPart (Some (mkBlob (base64Data img) (Some (imageMimeType img)))) None.

Definition text_part (s : string) : Part := mkPart None (Some s).

(** The [parts] array [generateOrEditImage] builds, push by push. *)
Definition request_parts (prompt : string) (baseImage : option InlineImage)
    (referenceImages : list InlineImage) (maskImage : option InlineImage) : list Part :=
  let parts : list Part := [] in
  let parts :=
    match baseImage with
    | Some b => (parts ++ [image_part b])%list
    | None => parts
    end in
  let parts :=
    match maskImage, baseImage with
    | Some m, Some _ => (parts ++ [image_part m])%list
    | _, _ => parts
    end in
  let parts :=
    fold_left (fun ps ref => (ps ++ [image_part ref])%list) referenceImages parts in
  (parts ++ [text_part prompt])%list.

(** [part.inlineData?.data] when it is truthy. *)
Definition image_data (p : Part) : option string :=
  match inlineData p with
  | Some b =>
      match data b with
      | Some d => if JS.truthy d then Some d else None
      | None => None
      end
  | None => None
  end.

Definition has_image_data (p : Part) : bool :=
  match image_data p with Some _ => true | None => false end.

Definition has_text (p : Part) : bool := JS.truthy_opt (text p).

(** [response.promptFeedback?.blockReason] *)
Definition response_blockReason (response : GenerateContentResponse) : option string :=
  match promptFeedback response with
  | Some f => blockReason f
  | None => None
  end.

(** The parts of a candidate, when [candidate.content],
    [candidate.content.parts] and its length are all truthy. *)
Definition candidate_parts (c : Candidate) : option (list Part) :=
  match content c with
  | Some ct =>
      match parts ct with
      | Some [] => None
      | Some ps => Some ps
      | None => None
      end
  | None => None
  end.

Definition safetyIssues (c : Candidate) : option string :=
  match safetyRatings c with
  | None => None
  | Some ratings =>
      Some (String.concat ", "
        (map (fun rating => JS.replace "HARM_CATEGORY_" EmptyString (category rating))
           (filter (fun rating =>
                      negb (String.eqb (probability rating) "NEGLIGIBLE") &&
                      negb (String.eqb (probability rating) "LOW"))
                   ratings)))
  end.

Definition opt_eqb (o : option string) (s : string) : bool :=
  match o with Some x => String.eqb x s | None => false end.

Definition opt_string (o : option string) : string :=
  match o with Some x => x | None => EmptyString end.

(** The message thrown for a candidate without parts. *)
Definition no_parts_message (candidate : Candidate) : string :=
  if opt_eqb (finishReason candidate) "SAFETY"
  then
    "The request was blocked for safety reasons" ++
    (if JS.truthy_opt (safetyIssues candidate)
     then ": " ++ opt_string (safetyIssues candidate) else EmptyString) ++
    ". Please adjust your prompt."
  else
    let errorMessage := "Image generation failed." in
    let errorMessage :=
      if JS.truthy_opt (finishReason candidate) &&
         negb (opt_eqb (finishReason candidate) "STOP")
      then errorMessage ++ " Reason: " ++ opt_string (finishReason candidate) ++ "."
      else errorMessage in
    let errorMessage :=
      if JS.truthy_opt (finishMessage candidate)
      then errorMessage ++ " Details: " ++ opt_string (finishMessage candidate)
      else errorMessage in
    errorMessage.

(** [generateOrEditImage] after the [await]: what it does with the
    response. *)
Definition process_response (response : GenerateContentResponse) : TryResult :=
  if JS.truthy_opt (response_blockReason response)
  then ThrowError ("Request was blocked: " ++ opt_string (response_blockReason response)
                   ++ ". Please modify your prompt.")
  else
    match candidates response with
    | None | Some [] =>
        ThrowError "The API returned no content, which may be due to safety filters or an invalid prompt."
    | Some (candidate :: _) =>
        match candidate_parts candidate with
        | None => ThrowError (no_parts_message candidate)
        | Some ps =>
            match option_map image_data (JS.find has_image_data ps) with
            | Some (Some d) => Return d
            | _ =>
                match JS.find has_text ps with
                | Some textPart =>
                    ThrowError ("API returned text instead of an image: " ++
                                String (ascii_of_nat 34) (opt_string (text textPart)) ++
                                String (ascii_of_nat 34) EmptyString)
                | None => ThrowError "No image data found in the API response."
                end
            end
        end
    end.

(** The [await] of an API call inside [try]. *)
Definition await_api (o : ApiOutcome) (k : GenerateContentResponse -> TryResult) : TryResult :=
  match o with
  | ApiReturns response => k response
  | ApiThrowsError message => ThrowError message
  | ApiThrowsOther => ThrowOther
  end.

(** [generateOrEditImage]; [generateContent] is the API call, a function of
    the parts sent. *)
Definition generateOrEditImage (generateContent : list Part -> ApiOutcome)
    (prompt : string) (baseImage : option InlineImage)
    (referenceImages : list InlineImage) (maskImage : option InlineImage) : Settled :=
  match await_api
          (generateContent (request_parts prompt baseImage referenceImages maskImage))
          process_response with
  | Return d => Resolved d
  | ThrowError message => Rejected message
  | ThrowOther =>
      Rejected "An unknown error occurred while communicating with the Gemini API."
  end.

(** [enhancePrompt]; [generateContent] is the API call, a function of the
    prompt sent. *)
Definition enhancePrompt (generateContent : string -> ApiOutcome) (prompt : string)
  : Settled :=
  if negb (JS.truthy (JS.trim prompt))
  then Rejected "Prompt cannot be empty."
  else
    match await_api (generateContent prompt)
            (fun response =>
               if negb (JS.truthy_opt (response_text response))
               then ThrowError "The API returned an empty enhancement."
               else Return (opt_string (response_text response))) with
    | Return enhanced => Resolved enhanced
    | ThrowError message => Rejected ("Failed to enhance prompt: " ++ message)
    | ThrowOther => Rejected "An unknown error occurred while enhancing the prompt."
    end.

End GeminiService.

(** ** The component [ImageStudio] *)

Module ImageStudio.

Import Ascii String.

Local Open Scope string_scope.

(** A [File]: its name and MIME type; its content is what the [FileReader]
    reads. *)
Record File : Type := mkFile { name : string; type : string }.

(** [ImageFile] of App.tsx; [base64] is the data URL read from the file. *)
Record ImageFile : Type := mkImageFile { file : File; base64 : string }.

(** The translations the component uses. *)
Record Translations : Type := mkTranslations {
  errorInvalidImage : string;
  errorReadFile : string;
  errorMaxRefImages : nat -> string;
  errorPromptEmpty : string;
  errorUnexpected : string;
  errorEnhanceFailed : string
}.

Definition MAX_REFERENCE_IMAGES : nat := 3.

(** The component's state and refs. An entry of [referenceImages] is [None]
    when it is [undefined]. *)
Record Studio : Type := mkStudio {
  isLoading : bool;
  error : option string;
  originalImage : option ImageFile;
  editedImage : option string;
  referenceImages : list (option ImageFile);
  prompt : string;
  isEnhancing : bool;
  isDraggingOver : bool;
  dragImage : option nat;
  dragOverImage : option nat
}.

Definition initial : Studio :=
  mkStudio false None None None [] EmptyString false false None None.

Definition setIsLoading (v : bool) (st : Studio) : Studio :=
  mkStudio v (error st) (originalImage st) (editedImage st) (referenceImages st)
    (prompt st) (isEnhancing st) (isDraggingOver st) (dragImage st) (dragOverImage st).

Definition setError (v : option string) (st : Studio) : Studio :=
  mkStudio (isLoading st) v (originalImage st) (editedImage st) (referenceImages st)
    (prompt st) (isEnhancing st) (isDraggingOver st) (dragImage st) (dragOverImage st).

Definition setEditedImage (v : option string) (st : Studio) : Studio :=
  mkStudio (isLoading st) (error st) (originalImage st) v (referenceImages st)
    (prompt st) (isEnhancing st) (isDraggingOver st) (dragImage st) (dragOverImage st).

Definition setReferenceImages (v : list (option ImageFile)) (st : Studio) : Studio :=
  mkStudio (isLoading st) (error st) (originalImage st) (editedImage st) v
    (prompt st) (isEnhancing st) (isDraggingOver st) (dragImage st) (dragOverImage st).

Definition setPrompt (v : string) (st : Studio) : Studio :=
  mkStudio (isLoading st) (error st) (originalImage st) (editedImage st)
    (referenceImages st) v (isEnhancing st) (isDraggingOver st) (dragImage st)
    (dragOverImage st).

Definition setIsEnhancing (v : bool) (st : Studio) : Studio :=
  mkStudio (isLoading st) (error st) (originalImage st) (editedImage st)
    (referenceImages st) (prompt st) v (isDraggingOver st) (dragImage st)
    (dragOverImage st).

Definition setIsDraggingOver (v : bool) (st : Studio) : Studio :=
  mkStudio (isLoading st) (error st) (originalImage st) (editedImage st)
    (referenceImages st) (prompt st) (isEnhancing st) v (dragImage st)
    (dragOverImage st).

Definition set_dragImage (v : option nat) (st : Studio) : Studio :=
  mkStudio (isLoading st) (error st) (originalImage st) (editedImage st)
    (referenceImages st) (prompt st) (isEnhancing st) (isDraggingOver st) v
    (dragOverImage st).

Definition set_dragOverImage (v : option nat) (st : Studio) : Studio :=
  mkStudio (isLoading st) (error st) (originalImage st) (editedImage st)
    (referenceImages st) (prompt st) (isEnhancing st) (isDraggingOver st)
    (dragImage st) v.

(** An asynchronous handler: the state after its synchronous part, and the
    update it makes when its promise settles, applied to the state of that
    moment. *)
Definition Async : Type := (Studio * (Studio -> Studio))%type.

Definition done (st : Studio) : Async := (st, fun later => later).

(** The handler run with nothing happening before its promise settles. *)
Definition run (h : Async) : Studio := snd h (fst h).

(** An element of a [FileList] or of a drop's files. *)
Inductive Item : Type :=
| AFile (f : File)
| NotAFile.

(** [handleRemoveReferenceImage] *)
Definition handleRemoveReferenceImage (index : nat) (st : Studio) : Studio :=
  setReferenceImages
    (JS.filteri (fun i _ => negb (Nat.eqb i index)) 0 (referenceImages st)) st.

(** [onDragStart] and [onDragEnter] of the thumbnail at [index]. *)
Definition onDragStart (index : nat) (st : Studio) : Studio :=
  set_dragImage (Some index) st.

Definition onDragEnter (index : nat) (st : Studio) : Studio :=
  set_dragOverImage (Some index) st.

(** [handleSortReferenceImages]: [splice(i, 1)[0]] is [undefined] when
    nothing is removed. *)
Definition handleSortReferenceImages (st : Studio) : Studio :=
  match dragImage st, dragOverImage st with
  | Some i, Some j =>
      let newImages := referenceImages st in
      let (removed, newImages) := JS.splice_delete1 i newImages in
      let draggedItem := match removed with x :: _ => x | [] => None end in
      let newImages := JS.splice_insert j draggedItem newImages in
      setReferenceImages newImages (set_dragOverImage None (set_dragImage None st))
  | _, _ => st
  end.

(** The [File] that [dataURLtoFile] makes: its bytes, name and type. *)
Record ByteFile : Type := mkByteFile {
  bytes : list Z;
  byte_file_name : string;
  byte_file_type : string
}.

(** What [dataURLtoFile] throws: its own [Error], or [atob]'s
    [InvalidCharacterError]. *)
Inductive Thrown : Type :=
| Error (message : string)
| InvalidCharacterError.

(** [(.*?);] from the character after a colon: the text up to the first
    semicolon, which no line terminator precedes. *)
Fixpoint lazy_until_semicolon (s : string) : option string :=
  match s with
  | EmptyString => None
  | String c r =>
      if Ascii.eqb c ";" then Some EmptyString
      else if JS.isLineTerminator c then None
      else option_map (String c) (lazy_until_semicolon r)
  end.

(** [s.match(/:(.*?);/)], its group 1: the match that starts at the
    leftmost colon where there is one. *)
Fixpoint mimeMatch (s : string) : option string :=
  match s with
  | EmptyString => None
  | String c r =>
      if Ascii.eqb c ":"
      then match lazy_until_semicolon r with
           | Some mime => Some mime
           | None => mimeMatch r
           end
      else mimeMatch r
  end.

(** [while (n--) { u8arr[n] = bstr.charCodeAt(n); }] *)
Fixpoint fill_bytes (bstr : string) (n : nat) (u8arr : list Z) : list Z :=
  match n with
  | O => u8arr
  | S n' => fill_bytes bstr n' (JS.array_set u8arr n' (JS.charCodeAt bstr n'))
  end.

(** [dataURLtoFile]; [atob] is the platform's, [None] when it throws;
    [arr[1]], when undefined, is passed to it as ["undefined"]. *)
Definition dataURLtoFile (atob : string -> option string)
    (dataurl filename : string) : ByteFile + Thrown :=
  let arr := JS.split "," dataurl in
  match mimeMatch (nth 0 arr EmptyString) with
  | None => inr (Error "Invalid data URL")
  | Some mime =>
      match atob (match nth_error arr 1 with Some x => x | None => "undefined" end) with
      | None => inr InvalidCharacterError
      | Some bstr =>
          let n := String.length bstr in
          let u8arr := repeat 0 n in
          inl (mkByteFile (fill_bytes bstr n u8arr) filename (JS.File_type mime))
      end
  end.

Section WithReader.

(** The translations in use, and what [fileToBase64] gives for a file: the
    data URL, or [None] when the reader fails. *)
Variable t : Translations.
Variable fileToBase64 : File -> option string.

(** The check each item passes before it is read; the message of the
    [Error] thrown otherwise. *)
Definition invalid_item (item : Item) : option string :=
  match item with
  | NotAFile => Some "An uploaded item was not a valid file."
  | AFile f =>
      if negb (JS.startsWith (type f) "image/") then Some (errorInvalidImage t)
      else None
  end.

Fixpoint first_invalid (files : list Item) : option string :=
  match files with
  | [] => None
  | item :: rest =>
      match invalid_item item with
      | Some message => Some message
      | None => first_invalid rest
      end
  end.

(** The images read, when every read succeeds. *)
Fixpoint read_all (files : list Item) : option (list ImageFile) :=
  match files with
  | [] => Some []
  | NotAFile :: _ => None
  | AFile f :: rest =>
      match fileToBase64 f, read_all rest with
      | Some b, Some imgs => Some (mkImageFile f b :: imgs)
      | _, _ => None
      end
  end.

(** [Promise.all] over the items and the [catch] of its rejection: the
    items that fail the check reject first, in order; a failed read rejects
    with the reader's event, which is no [Error]. *)
Definition new_images (files : list Item) : string + list ImageFile :=
  match first_invalid files with
  | Some message => inl message
  | None =>
      match read_all files with
      | Some imgs => inr imgs
      | None => inl (errorReadFile t)
      end
  end.

(** [processAndSetReferenceFiles] *)
Definition processAndSetReferenceFiles (files : list Item) (st : Studio) : Async :=
  if (MAX_REFERENCE_IMAGES <? List.length (referenceImages st) + List.length files)%nat
  then done (setError (Some (errorMaxRefImages t MAX_REFERENCE_IMAGES)) st)
  else
    (setError None st,
     fun later =>
       match new_images files with
       | inr newImages =>
           setReferenceImages (referenceImages later ++ map Some newImages)%list later
       | inl message => setError (Some message) later
       end).

(** [handleReferenceImageUpload]: [files] is [None] when
    [event.target.files] is null. *)
Definition handleReferenceImageUpload (files : option (list Item)) (st : Studio) : Async :=
  match files with
  | Some fs => processAndSetReferenceFiles fs st
  | None => done st
  end.

(** [handleDrop] *)
Definition handleDrop (files : list Item) (st : Studio) : Async :=
  processAndSetReferenceFiles files (setIsDraggingOver false st).

End WithReader.

Section WithService.

Variable t : Translations.

(** The message of the [TypeError] the engine throws on reading a property
    of [undefined]. *)
Variable typeErrorMessage : string.

(** [{ base64Data: image.base64.split(',')[1], mimeType: image.file.type }] *)
Definition inline_image (image : ImageFile) : GeminiService.InlineImage :=
  GeminiService.mkInlineImage (nth_error (JS.split "," (base64 image)) 1)
    (type (file image)).

(** [referenceImages.map(...)], [None] when it throws on an [undefined]
    entry. *)
Fixpoint refImagesData (refs : list (option ImageFile))
  : option (list GeminiService.InlineImage) :=
  match refs with
  | [] => Some []
  | None :: _ => None
  | Some ref :: rest =>
      match refImagesData rest with
      | Some ds => Some (inline_image ref :: ds)
      | None => None
      end
  end.

(** [handleSubmit]; the call of [generateOrEditImage] has three arguments,
    so no mask. What precedes the [await] runs at once, the [TypeError] of
    an [undefined] entry included. *)
Definition handleSubmit (generateContent : list GeminiService.Part -> GeminiService.ApiOutcome)
    (st : Studio) : Async :=
  if negb (JS.truthy (JS.trim (prompt st)))
  then done (setError (Some (errorPromptEmpty t)) st)
  else
    let st' := setEditedImage None (setError None (setIsLoading true st)) in
    let baseImageData := option_map inline_image (originalImage st) in
    match refImagesData (referenceImages st) with
    | None => done (setIsLoading false (setError (Some typeErrorMessage) st'))
    | Some refs =>
        (st',
         fun later =>
           match GeminiService.generateOrEditImage generateContent (prompt st)
                   baseImageData refs None with
           | GeminiService.Resolved resultBase64 =>
               setIsLoading false
                 (setEditedImage (Some ("data:image/png;base64," ++ resultBase64)) later)
           | GeminiService.Rejected message =>
               setIsLoading false (setError (Some message) later)
           end)
    end.

(** [handleEnhancePrompt] *)
Definition handleEnhancePrompt (generateContent : string -> GeminiService.ApiOutcome)
    (st : Studio) : Async :=
  if negb (JS.truthy (prompt st))
  then done st
  else
    (setError None (setIsEnhancing true st),
     fun later =>
       match GeminiService.enhancePrompt generateContent (prompt st) with
       | GeminiService.Resolved enhanced => setIsEnhancing false (setPrompt enhanced later)
       | GeminiService.Rejected message =>
           setIsEnhancing false (setError (Some message) later)
       end).

End WithService.

End ImageStudio.

(** * Properties *)

(** ** Lists of pixels *)

Lemma zip_layer_length (f : RGBA -> RGBA -> RGBA) (layer bm : list RGBA) :
  length (zip_layer f layer bm) = length bm.
Proof.
  revert layer; induction bm as [|d bm IH]; intros [|s layer]; simpl; auto.
Qed.

Lemma zip_layer_map {A : Type} (f : RGBA -> RGBA -> RGBA) (g h : A -> RGBA)
    (l : list A) :
  zip_layer f (map g l) (map h l) = map (fun a => f (g a) (h a)) l.
Proof.
  induction l as [|a l IH]; simpl; [reflexivity|]. now rewrite IH.
Qed.

Lemma zip_layer_map_self (f : RGBA -> RGBA -> RGBA) (g : RGBA -> RGBA)
    (bm : list RGBA) :
  zip_layer f (map g bm) bm = map (fun d => f (g d) d) bm.
Proof.
  rewrite <- (map_id bm) at 2. rewrite zip_layer_map. reflexivity.
Qed.

Lemma zip_layer_map_r (f : RGBA -> RGBA -> RGBA) (h : RGBA -> RGBA)
    (l : list RGBA) :
  zip_layer f l (map h l) = map (fun a => f a (h a)) l.
Proof.
  rewrite <- (map_id l) at 1. rewrite zip_layer_map. reflexivity.
Qed.

Lemma zip_layer_seq (f : RGBA -> RGBA -> RGBA) (g : nat -> RGBA)
    (bm : list RGBA) (k : nat) :
  zip_layer f (map g (seq k (length bm))) bm =
  map (fun id => f (g (fst id)) (snd id)) (combine (seq k (length bm)) bm).
Proof.
  revert k; induction bm as [|d bm IH]; intros k; simpl; [reflexivity|].
  now rewrite IH.
Qed.

Lemma repeat_as_map {A B : Type} (b : B) (l : list A) :
  repeat b (length l) = map (fun _ => b) l.
Proof.
  induction l as [|a l IH]; simpl; [reflexivity|]. now rewrite IH.
Qed.

Lemma wf_canvas_length (c : Canvas) :
  wf_canvas c -> length (bitmap c) = Z.to_nat (width c * height c).
Proof.
  unfold wf_canvas, wf_canvasb. intros H.
  apply andb_prop in H as [H _]. apply andb_prop in H as [_ H].
  now apply Nat.eqb_eq.
Qed.

Lemma wf_canvas_pixels (c : Canvas) :
  wf_canvas c -> Forall wf_pixel (bitmap c).
Proof.
  unfold wf_canvas, wf_canvasb. intros H.
  apply andb_prop in H as [_ H]. apply Forall_forall.
  intros p Hp. now apply (proj1 (forallb_forall _ _) H).
Qed.

Lemma blank_as_map (c : Canvas) :
  wf_canvas c -> blank (width c) (height c) = map (fun _ => transparent) (bitmap c).
Proof.
  intros H. unfold blank. rewrite <- (wf_canvas_length c H). apply repeat_as_map.
Qed.

(** ** Pixels *)

Lemma mul255_255_r (a : Z) : mul255 a 255 = a.
Proof. unfold mul255. rewrite Z.div_add_l by lia. now rewrite Z.add_0_r. Qed.

Lemma mul255_0_l (k : Z) : mul255 0 k = 0.
Proof. reflexivity. Qed.

Lemma scale_255 (p : RGBA) : scale 255 p = p.
Proof. destruct p; unfold scale; simpl. now rewrite !mul255_255_r. Qed.

Lemma scale_transparent (k : Z) : scale k transparent = transparent.
Proof. reflexivity. Qed.

Lemma alpha_premultiply (p : RGBA) : alpha (premultiply p) = alpha p.
Proof. reflexivity. Qed.

Lemma alpha_unpremultiply (p : RGBA) : alpha (unpremultiply p) = alpha p.
Proof.
  unfold unpremultiply. destruct (alpha p =? 0) eqn:E; [|reflexivity].
  apply Z.eqb_eq in E. now rewrite E.
Qed.

Lemma wf_pixel_alpha_0 (p : RGBA) : wf_pixel p -> alpha p = 0 -> p = transparent.
Proof.
  destruct p as [r g b a]; unfold wf_pixel, wf_pixelb; simpl. intros H Ha.
  repeat (apply andb_prop in H as [H ?]). unfold transparent. f_equal; lia.
Qed.

(** ** [handleSave] *)

Lemma saved_pixel_binarize (p : RGBA) :
  saved_pixel p = if 0 <? alpha p then white else black.
Proof.
  unfold saved_pixel. cbv zeta.
  repeat rewrite ?alpha_unpremultiply, ?alpha_premultiply.
  destruct (alpha p >? 0) eqn:E.
  - replace (0 <? alpha p) with true by (symmetry; apply Z.ltb_lt; lia).
    reflexivity.
  - replace (0 <? alpha p) with false by (symmetry; apply Z.ltb_ge; lia).
    rewrite alpha_unpremultiply, E. reflexivity.
Qed.

Lemma nonempty_test (w h : Z) :
  0 < w -> 0 < h -> (w =? 0) || (h =? 0) = false.
Proof.
  intros Hw Hh. apply orb_false_iff. split; apply Z.eqb_neq; lia.
Qed.

Lemma getImageData_nonempty (c : Canvas) :
  0 < width c -> 0 < height c ->
  getImageData c =
  Normal (mkImageData (width c) (height c) (map unpremultiply (bitmap c))).
Proof. intros Hw Hh. unfold getImageData. now rewrite nonempty_test. Qed.

Lemma drawImage_nonempty (source c : Canvas) :
  0 < width source -> 0 < height source ->
  drawImage source c = Normal (paint (bitmap source) c).
Proof. intros Hw Hh. unfold drawImage. now rewrite nonempty_test. Qed.

Lemma toDataURL_nonempty (c : Canvas) :
  0 < width c -> 0 < height c ->
  toDataURL c =
  Some (mkImageData (width c) (height c) (map unpremultiply (bitmap c))).
Proof. intros Hw Hh. unfold toDataURL. now rewrite nonempty_test. Qed.

Lemma bitmap_paint (layer : list RGBA) (c : Canvas) :
  bitmap (paint layer c) =
  zip_layer (fun s d => composite (globalCompositeOperation (state c))
                          (scale (alpha8 (globalAlpha (state c))) s) d)
            layer (bitmap c).
Proof. reflexivity. Qed.

Lemma bitmap_fillRect_all (c : Canvas) :
  bitmap (fillRect_all c) =
  map (fun d => composite (globalCompositeOperation (state c))
                  (scale (alpha8 (globalAlpha (state c)))
                         (premultiply (fillStyle (state c)))) d)
      (bitmap c).
Proof.
  unfold fillRect_all, paint. cbn [bitmap with_bitmap].
  now rewrite zip_layer_map_self.
Qed.

(** The result of [handleSave] on an available canvas with pixels, as one
    map over the overlay bitmap. *)
Lemma handleSave_available (st : Editor) (c : Canvas) :
  drawingCanvasRef st = Some c -> contextAvailable c = true ->
  wf_canvas c -> 0 < width c -> 0 < height c ->
  handleSave st =
  (st, Returned (Some (mkImageFile
         (mkImageData (width c) (height c) (map saved_pixel (bitmap c)))))).
Proof.
  intros Hc Hav Hwf Hw Hh. unfold handleSave. rewrite Hc.
  unfold getContext2d. rewrite Hav.
  rewrite (getImageData_nonempty c Hw Hh).
  rewrite drawImage_nonempty by assumption.
  rewrite !getImageData_nonempty by assumption.
  rewrite toDataURL_nonempty by assumption.
  cbn [dataURLtoFile]. do 4 f_equal.
  unfold putImageData, with_data.
  cbn [bitmap with_bitmap data set_globalCompositeOperation with_state].
  rewrite bitmap_fillRect_all.
  cbn [bitmap tempCanvas_like set_height set_width set_fillStyle with_state
       state width height createElement_canvas default_context
       globalCompositeOperation globalAlpha fillStyle].
  rewrite (blank_as_map c Hwf).
  unfold silhouette_loop, final_loop.
  repeat first [rewrite map_map | rewrite zip_layer_map].
  cbn [width height with_bitmap fillRect_all paint tempCanvas_like set_height
       set_width set_fillStyle set_globalCompositeOperation with_state].
  reflexivity.
Qed.

Lemma handleSave_exports (st : Editor) (c : Canvas) :
  drawingCanvasRef st = Some c -> contextAvailable c = true ->
  wf_canvas c -> 0 < width c -> 0 < height c ->
  handleSave st =
  (st, Returned (Some (mkImageFile
         (mkImageData (width c) (height c) (binarize (bitmap c)))))).
Proof.
  intros Hc Hav Hwf Hw Hh. rewrite (handleSave_available st c) by assumption.
  unfold binarize. do 5 f_equal. apply map_ext, saved_pixel_binarize.
Qed.

(** C1, as amended: on an overlay canvas with pixels (width and height not
    zero), [handleSave] hands [onSave] a raster of the overlay's width and
    height whose pixel is opaque white (255,255,255,255) where the overlay's
    alpha is above zero and opaque black (0,0,0,255) elsewhere, whatever the
    alpha's magnitude. *)
Theorem handleSave_binarizes (st : Editor) (c : Canvas) :
  drawingCanvasRef st = Some c -> contextAvailable c = true ->
  wf_canvas c -> 0 < width c -> 0 < height c ->
  exists out : ImageData,
    snd (handleSave st) = Returned (Some (mkImageFile out)) /\
    iwidth out = width c /\ iheight out = height c /\
    length (data out) = length (bitmap c) /\
    forall (i : nat) (p : RGBA), nth_error (bitmap c) i = Some p ->
      nth_error (data out) i =
      Some (if 0 <? alpha p then mkRGBA 255 255 255 255 else mkRGBA 0 0 0 255).
Proof.
  intros Hc Hav Hwf Hw Hh.
  exists (mkImageData (width c) (height c) (binarize (bitmap c))).
  rewrite (handleSave_exports st c) by assumption. cbn [snd iwidth iheight data].
  repeat split.
  - unfold binarize. apply length_map.
  - intros i p Hp. unfold binarize.
    rewrite nth_error_map, Hp. reflexivity.
Qed.

Lemma handleSave_binarizes_witness :
  exists out : ImageData,
    snd (handleSave (editor_on (canvas_of 2 1 [highlight; transparent]))) =
      Returned (Some (mkImageFile out)) /\
    data out = [white; black].
Proof.
  destruct (handleSave_binarizes
              (editor_on (canvas_of 2 1 [highlight; transparent]))
              (canvas_of 2 1 [highlight; transparent]))
    as (out & Hout & _ & _ & Hlen & Hpix);
    [reflexivity | reflexivity | reflexivity | reflexivity | reflexivity |].
  exists out. split; [exact Hout|].
  pose proof (Hpix 0%nat highlight eq_refl) as H0.
  pose proof (Hpix 1%nat transparent eq_refl) as H1.
  destruct (data out) as [|a [|b [|? ?]]]; try discriminate Hlen.
  cbn in H0, H1. injection H0 as ->. injection H1 as ->. reflexivity.
Defined.

(** C1, as stated, fails on a canvas without pixels: a 2048 by 1 image in
    a 1024 by 768 container gives a well-formed canvas of height 0, on which
    [getImageData] throws and nothing is handed to [onSave]. *)
Lemma handleSave_empty_canvas_throws :
  option_map (fun c => (width c, height c, contextAvailable c, wf_canvasb c))
             (drawingCanvasRef banner_editor) = Some (1024, 0, true, true) /\
  snd (handleSave banner_editor) = Threw (DOM IndexSizeError).
Proof. split; vm_compute; reflexivity. Qed.

Lemma handleSave_state (st : Editor) : fst (handleSave st) = st.
Proof.
  unfold handleSave.
  repeat match goal with
         | |- context [match ?t with _ => _ end] => destruct t
         end; reflexivity.
Qed.

(** C9: [handleSave] leaves the editor as it found it, whether it saves,
    returns early or throws: the overlay canvas, its bitmap included, is the
    same before and after, and every later event is handled as it would
    have been without the save. *)
Theorem handleSave_preserves_overlay (st : Editor) :
  fst (handleSave st) = st /\
  drawingCanvasRef (fst (handleSave st)) = drawingCanvasRef st /\
  option_map bitmap (drawingCanvasRef (fst (handleSave st))) =
    option_map bitmap (drawingCanvasRef st) /\
  forall rasterize sample fl (ev : Event),
    handle rasterize sample fl ev (fst (handleSave st)) =
    handle rasterize sample fl ev st.
Proof.
  rewrite (handleSave_state st). repeat split.
Qed.

(** ** [clearMask] *)

Lemma clearMask_available (st : Editor) (c : Canvas) :
  drawingCanvasRef st = Some c -> contextAvailable c = true ->
  clearMask st = with_drawingCanvas (Some (clearRect_all c)) st.
Proof. intros Hc Hav. unfold clearMask. now rewrite Hc, Hav. Qed.

Lemma wf_clearRect_all (c : Canvas) : wf_canvas c -> wf_canvas (clearRect_all c).
Proof.
  unfold wf_canvas, wf_canvasb, clearRect_all. cbn [width height bitmap with_bitmap].
  intros H. apply andb_prop in H as [H _]. rewrite length_map, H. cbn [andb].
  apply forallb_forall. intros p Hp. apply in_map_iff in Hp as (? & <- & _).
  reflexivity.
Qed.

(** C6, as amended: [clearMask] makes every pixel of the overlay fully
    transparent, and on a canvas with pixels (width and height not zero) a
    following [handleSave] hands [onSave] an all-black opaque raster of the
    canvas's width and height. *)
Theorem clearMask_then_handleSave (st : Editor) (c : Canvas) :
  drawingCanvasRef st = Some c -> contextAvailable c = true -> wf_canvas c ->
  (exists c', drawingCanvasRef (clearMask st) = Some c' /\
     width c' = width c /\ height c' = height c /\
     length (bitmap c') = length (bitmap c) /\
     Forall (fun p => p = transparent) (bitmap c')) /\
  (0 < width c -> 0 < height c ->
   exists out : ImageData,
     snd (handleSave (clearMask st)) = Returned (Some (mkImageFile out)) /\
     iwidth out = width c /\ iheight out = height c /\
     length (data out) = length (bitmap c) /\
     Forall (fun p => p = mkRGBA 0 0 0 255) (data out)).
Proof.
  intros Hc Hav Hwf. rewrite (clearMask_available st c Hc Hav). split.
  - exists (clearRect_all c). cbn. repeat split.
    + apply length_map.
    + apply Forall_forall. intros p Hp.
      apply in_map_iff in Hp as (? & <- & _). reflexivity.
  - intros Hw Hh.
    exists (mkImageData (width c) (height c) (binarize (bitmap (clearRect_all c)))).
    rewrite (handleSave_exports _ (clearRect_all c));
      [| reflexivity | exact Hav | now apply wf_clearRect_all | exact Hw | exact Hh].
    cbn [snd iwidth iheight data]. repeat split.
    + unfold binarize, clearRect_all. cbn. now rewrite !length_map.
    + apply Forall_forall. intros p Hp. unfold binarize, clearRect_all in Hp.
      cbn in Hp. rewrite map_map in Hp.
      apply in_map_iff in Hp as (? & <- & _). reflexivity.
Qed.

Lemma clearMask_then_handleSave_witness :
  exists out : ImageData,
    snd (handleSave (clearMask (editor_on (canvas_of 2 1 [highlight; transparent])))) =
      Returned (Some (mkImageFile out)) /\
    data out = [black; black].
Proof.
  destruct (clearMask_then_handleSave
              (editor_on (canvas_of 2 1 [highlight; transparent]))
              (canvas_of 2 1 [highlight; transparent])
              eq_refl eq_refl eq_refl) as [_ H].
  destruct (H eq_refl eq_refl) as (out & Hout & _ & _ & Hlen & Hpix).
  exists out. split; [exact Hout|].
  destruct (data out) as [|a [|b [|? ?]]]; try discriminate Hlen.
  inversion Hpix as [|? ? Ha Hpix']. inversion Hpix' as [|? ? Hb _].
  now rewrite Ha, Hb.
Defined.

(** C6, as stated, fails on a canvas without pixels (1024 by 0, as a 2048
    by 1 image in a 1024 by 768 container gives): [clearMask] leaves it
    empty, and [handleSave] then throws instead of yielding a raster. *)
Lemma clearMask_then_handleSave_empty_throws :
  option_map (fun c => (width c, height c, bitmap c))
             (drawingCanvasRef (clearMask banner_editor)) = Some (1024, 0, []) /\
  snd (handleSave (clearMask banner_editor)) = Threw (DOM IndexSizeError).
Proof. split; vm_compute; reflexivity. Qed.

(** ** The unready surface *)

Lemma getContext2d_None (ref : option Canvas) :
  getContext2d ref = None ->
  ref = None \/ exists c, ref = Some c /\ contextAvailable c = false.
Proof.
  destruct ref as [c|]; [|now left]. unfold getContext2d.
  destruct (contextAvailable c) eqn:E; [discriminate|]. right. now exists c.
Qed.

(** C5: when the drawing canvas is not mounted or gives no 2D context,
    [drawLine], [clearMask], [invertMask] and [handleSave] return normally,
    leave the editor as it was, and [onSave] is not called. *)
Theorem unavailable_surface_noop
    (rasterize : Z -> LineCap -> LineJoin -> Point -> Point -> Z -> Z -> nat -> Z)
    (x1 y1 x2 y2 : Q) (st : Editor) :
  getContext2d (drawingCanvasRef st) = None ->
  drawLine rasterize x1 y1 x2 y2 st = st /\
  clearMask st = st /\
  invertMask st = (st, Returned tt) /\
  handleSave st = (st, Returned None).
Proof.
  intros H. unfold drawLine. rewrite H.
  apply getContext2d_None in H as [H | (c & H & Hav)];
    unfold clearMask, invertMask, handleSave, getContext2d;
    rewrite H; rewrite ?Hav; cbn [negb]; auto.
Qed.

Lemma unavailable_surface_noop_witness :
  (drawLine cover_all 0 0 1 0 unmounted = unmounted /\
   clearMask unmounted = unmounted /\
   invertMask unmounted = (unmounted, Returned tt) /\
   handleSave unmounted = (unmounted, Returned None)) /\
  (drawLine cover_all 0 0 1 0 contextless = contextless /\
   clearMask contextless = contextless /\
   invertMask contextless = (contextless, Returned tt) /\
   handleSave contextless = (contextless, Returned None)).
Proof.
  split.
  - apply (unavailable_surface_noop cover_all 0 0 1 0 unmounted). reflexivity.
  - apply (unavailable_surface_noop cover_all 0 0 1 0 contextless). reflexivity.
Defined.

(** ** The stroke handlers *)

(** C10: while no stroke is active ([isDrawing] is false, as in a mounted
    editor before any [startDrawing] and after every [stopDrawing]), [draw]
    leaves the whole editor, overlay bitmap and [lastPos] included, as it
    was, for every pointer position. *)
Theorem draw_idle_noop
    (rasterize : Z -> LineCap -> LineJoin -> Point -> Point -> Z -> Z -> nat -> Z)
    (e : MouseEvent) (st : Editor) :
  isDrawing st = false ->
  draw rasterize e st = st /\
  drawingCanvasRef (draw rasterize e st) = drawingCanvasRef st /\
  lastPos (draw rasterize e st) = lastPos st.
Proof.
  intros H. assert (E : draw rasterize e st = st).
  { unfold draw. now rewrite H. }
  now rewrite E.
Qed.

Lemma isDrawing_stopDrawing (st : Editor) : isDrawing (stopDrawing st) = false.
Proof. reflexivity. Qed.

Lemma isDrawing_mounted (box : Container) : isDrawing (mounted box) = false.
Proof. reflexivity. Qed.

Lemma draw_idle_noop_witness :
  let e := mkMouseEvent 1 0 in
  let st := stopDrawing
              (startDrawing cover_first (mkMouseEvent 0 0)
                 (editor_on (canvas_of 2 1 [transparent; transparent]))) in
  draw cover_first e st = st /\
  draw cover_first e (mounted (mkContainer 3 3)) = mounted (mkContainer 3 3).
Proof.
  split.
  - apply (draw_idle_noop cover_first). apply isDrawing_stopDrawing.
  - apply (draw_idle_noop cover_first). apply isDrawing_mounted.
Defined.

(** ** Strokes *)

Lemma map_combine_seq_id (f : nat * RGBA -> RGBA) (bm : list RGBA) (k : nat) :
  (forall i d, nth_error bm i = Some d -> f ((k + i)%nat, d) = d) ->
  map f (combine (seq k (length bm)) bm) = bm.
Proof.
  revert k; induction bm as [|d bm IH]; intros k H; simpl; [reflexivity|].
  f_equal.
  - specialize (H 0%nat d eq_refl). now rewrite Nat.add_0_r in H.
  - apply IH. intros i d' Hi. specialize (H (S i) d' Hi).
    now rewrite Nat.add_succ_r in H.
Qed.

(** The outcome of [handleSave] depends on the overlay canvas only through
    its size, its bitmap and the availability of its context. *)
Lemma handleSave_outcome_ext (st st' : Editor) (c c' : Canvas) :
  drawingCanvasRef st = Some c -> drawingCanvasRef st' = Some c' ->
  width c' = width c -> height c' = height c -> bitmap c' = bitmap c ->
  contextAvailable c' = contextAvailable c ->
  snd (handleSave st') = snd (handleSave st).
Proof.
  intros Hc Hc' Hw Hh Hb Ha.
  unfold handleSave. rewrite Hc, Hc'.
  unfold getContext2d. rewrite Ha. destruct (contextAvailable c); [|reflexivity].
  unfold getImageData at 1 4. rewrite Hw, Hh, Hb.
  destruct ((width c =? 0) || (height c =? 0)); [reflexivity|].
  unfold tempCanvas_like. rewrite Hw, Hh.
  repeat match goal with
         | |- context [match ?t with _ => _ end] => destruct t
         end; reflexivity.
Qed.

Section Strokes.

Variable rasterize :
  Z -> LineCap -> LineJoin -> Point -> Point -> Z -> Z -> nat -> Z.

Lemma bitmap_stroke (p q : Point) (c : Canvas) :
  bitmap (stroke rasterize p q c) =
  map (fun id =>
         composite (globalCompositeOperation (state c))
           (scale (alpha8 (globalAlpha (state c)))
              (scale (coverage rasterize c p q (fst id))
                     (premultiply (strokeStyle (state c)))))
           (snd id))
      (combine (seq 0 (length (bitmap c))) (bitmap c)).
Proof.
  unfold stroke, paint. cbn [bitmap with_bitmap].
  now rewrite zip_layer_seq.
Qed.

Lemma drawLine_available (x1 y1 x2 y2 : Q) (st : Editor) (c : Canvas) :
  drawingCanvasRef st = Some c -> contextAvailable c = true ->
  drawLine rasterize x1 y1 x2 y2 st =
  with_drawingCanvas
    (Some (stroke rasterize (mkPoint x1 y1) (mkPoint x2 y2) (brush_canvas st c))) st.
Proof.
  intros Hc Hav. unfold drawLine, getContext2d. now rewrite Hc, Hav.
Qed.

(** A pixel the eraser does not cover, or an empty pixel, is kept. *)
Lemma erase_pixel (cov : Z) (d : RGBA) :
  cov = 0 \/ d = transparent ->
  composite DestinationOut
    (scale (alpha8 (1 # 2)) (scale cov (premultiply css_red))) d = d.
Proof.
  intros [-> | ->].
  - change (scale (alpha8 (1 # 2)) (scale 0 (premultiply css_red)))
      with transparent.
    unfold composite. cbn [alpha transparent]. apply scale_255.
  - reflexivity.
Qed.

(** C8: a segment drawn in erase mode whose brush touches only pixels of
    alpha zero leaves the overlay's bitmap as it was, and [handleSave]
    gives afterwards what it gave before. *)
Theorem erase_unpainted_noop (x1 y1 x2 y2 : Q) (st : Editor) (c : Canvas) :
  drawingCanvasRef st = Some c -> wf_canvas c -> isErasing st = true ->
  (forall (i : nat) (p : RGBA),
      nth_error (bitmap c) i = Some p ->
      0 < rasterize (brushSize st) CapRound JoinRound
            (mkPoint x1 y1) (mkPoint x2 y2) (width c) (height c) i ->
      alpha p = 0) ->
  (exists c', drawingCanvasRef (drawLine rasterize x1 y1 x2 y2 st) = Some c' /\
     bitmap c' = bitmap c /\ width c' = width c /\ height c' = height c) /\
  snd (handleSave (drawLine rasterize x1 y1 x2 y2 st)) = snd (handleSave st).
Proof.
  intros Hc Hwf He Htouch.
  destruct (contextAvailable c) eqn:Hav.
  2:{ assert (E : drawLine rasterize x1 y1 x2 y2 st = st).
      { unfold drawLine, getContext2d. now rewrite Hc, Hav. }
      rewrite E. split; [exists c|]; auto. }
  rewrite (drawLine_available _ _ _ _ st c Hc Hav).
  set (cv := stroke rasterize _ _ _).
  assert (Hb : bitmap cv = bitmap c).
  { unfold cv. rewrite bitmap_stroke. unfold brush_canvas. rewrite He.
    cbn [state bitmap set_globalCompositeOperation set_globalAlpha set_lineJoin
         set_lineCap set_lineWidth set_strokeStyle with_state
         globalCompositeOperation globalAlpha strokeStyle].
    apply map_combine_seq_id. intros i d Hi. cbn [fst snd Nat.add].
    apply erase_pixel.
    unfold coverage.
    cbn [state width height set_globalCompositeOperation set_globalAlpha
         set_lineJoin set_lineCap set_lineWidth set_strokeStyle with_state
         lineWidth lineCap lineJoin].
    destruct (Z_lt_le_dec 0
                (rasterize (brushSize st) CapRound JoinRound
                   (mkPoint x1 y1) (mkPoint x2 y2) (width c) (height c) i))
      as [Hpos | Hneg].
    - right. apply wf_pixel_alpha_0.
      + pose proof (wf_canvas_pixels c Hwf) as Hall.
        rewrite Forall_forall in Hall. apply Hall.
        eapply nth_error_In; eassumption.
      + eapply Htouch; eassumption.
    - left. lia. }
  split.
  - exists cv. cbn [drawingCanvasRef with_drawingCanvas]. repeat split; auto.
  - apply (handleSave_outcome_ext st _ c cv); auto.
Qed.

End Strokes.

Lemma erase_unpainted_noop_witness :
  let c := canvas_of 2 1 [transparent; highlight] in
  let st := setIsErasing true (editor_on c) in
  (exists c', drawingCanvasRef (drawLine cover_first 0 0 0 0 st) = Some c' /\
     bitmap c' = bitmap c /\ width c' = width c /\ height c' = height c) /\
  snd (handleSave (drawLine cover_first 0 0 0 0 st)) = snd (handleSave st).
Proof.
  intros c st.
  apply (erase_unpainted_noop cover_first 0 0 0 0 st c);
    [reflexivity | reflexivity | reflexivity |].
  intros [|[|i]] p Hp Hcov.
  - injection Hp as <-. reflexivity.
  - discriminate Hcov.
  - destruct i; discriminate Hp.
Defined.

(** ** [invertMask] *)

(** On an available canvas with pixels, [invertMask] returns normally and
    maps [inverted_pixel] over the overlay. *)
Lemma invertMask_available (st : Editor) (c : Canvas) :
  drawingCanvasRef st = Some c -> contextAvailable c = true ->
  wf_canvas c -> 0 < width c -> 0 < height c ->
  exists c',
    invertMask st = (with_drawingCanvas (Some c') st, Returned tt) /\
    width c' = width c /\ height c' = height c /\
    contextAvailable c' = true /\
    bitmap c' = map inverted_pixel (bitmap c).
Proof.
  intros Hc Hav Hwf Hw Hh. unfold invertMask. rewrite Hc, Hav. cbn [negb].
  rewrite (drawImage_nonempty c _ Hw Hh).
  rewrite drawImage_nonempty by assumption.
  eexists. split; [reflexivity|].
  repeat split; try assumption.
  rewrite !bitmap_paint.
  cbn [bitmap state set_globalCompositeOperation with_state
       globalCompositeOperation globalAlpha].
  rewrite bitmap_fillRect_all.
  cbn [bitmap with_bitmap state set_globalCompositeOperation set_globalAlpha
       set_fillStyle with_state clearRect_all tempCanvas_like set_height
       set_width width height createElement_canvas default_context
       globalCompositeOperation globalAlpha fillStyle].
  cbn [state fillRect_all paint with_bitmap set_fillStyle set_globalAlpha
       with_state globalAlpha].
  rewrite (blank_as_map c Hwf).
  rewrite zip_layer_map_r, map_map, zip_layer_map.
  reflexivity.
Qed.

Lemma mul255_bounds (a k : Z) :
  0 <= a <= 255 -> 0 <= k <= 255 -> 0 <= mul255 a k <= k.
Proof.
  intros Ha Hk. unfold mul255. split.
  - apply Z.div_pos; nia.
  - apply Z.lt_succ_r, Z.div_lt_upper_bound; nia.
Qed.

Lemma mul255_mono_l (a b k : Z) : a <= b -> 0 <= k -> mul255 a k <= mul255 b k.
Proof. intros Hab Hk. unfold mul255. apply Z.div_le_mono; nia. Qed.

Lemma alpha8_half : alpha8 (1 # 2) = 128.
Proof. reflexivity. Qed.

Lemma alpha8_one : alpha8 1 = 255.
Proof. reflexivity. Qed.

(** The punch-out never clears a pixel: the copy is drawn at half its
    alpha, so at least half of the fill's alpha of 128 stays. *)
Lemma inverted_pixel_alpha (d : RGBA) :
  0 <= alpha d <= 255 -> 64 <= alpha (inverted_pixel d) <= 128.
Proof.
  intros Ha. unfold inverted_pixel.
  rewrite alpha8_half, alpha8_one, scale_255.
  change (composite SourceOver (scale 128 (premultiply css_red)) transparent)
    with highlight.
  unfold composite. rewrite scale_transparent.
  unfold scale, plus. cbn [alpha red green blue transparent highlight].
  rewrite Z.add_0_r.
  pose proof (mul255_bounds (alpha d) 128 Ha ltac:(lia)) as H1.
  pose proof (mul255_mono_l 0 (alpha d) 128 ltac:(lia) ltac:(lia)) as H2.
  set (m := mul255 (alpha d) 128) in *.
  unfold mul255. split.
  - apply Z.div_le_lower_bound; lia.
  - apply Z.lt_succ_r, Z.div_lt_upper_bound; lia.
Qed.

(** A pixel that was empty gets the highlight. *)
Lemma inverted_pixel_transparent : inverted_pixel transparent = highlight.
Proof. reflexivity. Qed.

Lemma wf_pixel_alpha (p : RGBA) : wf_pixel p -> 0 <= alpha p <= 255.
Proof.
  unfold wf_pixel, wf_pixelb. intros H.
  repeat (apply andb_prop in H as [H ?]). lia.
Qed.

(** After [invertMask], every pixel of the overlay has alpha above zero and
    [handleSave] exports a fully white mask, whatever was painted before. *)
Lemma invertMask_selects_all (st : Editor) (c : Canvas) :
  drawingCanvasRef st = Some c -> contextAvailable c = true ->
  wf_canvas c -> 0 < width c -> 0 < height c ->
  exists c',
    drawingCanvasRef (fst (invertMask st)) = Some c' /\
    Forall (fun p => 64 <= alpha p) (bitmap c') /\
    length (bitmap c') = length (bitmap c) /\
    snd (handleSave (fst (invertMask st))) =
    Returned (Some (mkImageFile
      (mkImageData (width c) (height c) (map (fun _ => white) (bitmap c))))).
Proof.
  intros Hc Hav Hwf Hw Hh.
  destruct (invertMask_available st c Hc Hav Hwf Hw Hh)
    as (c' & E & Hw' & Hh' & Hav' & Hb).
  exists c'. rewrite E. cbn [fst drawingCanvasRef with_drawingCanvas].
  assert (Hall : Forall (fun p => 64 <= alpha p) (bitmap c')).
  { rewrite Hb. apply Forall_forall. intros p Hp.
    apply in_map_iff in Hp as (d & <- & Hd).
    apply inverted_pixel_alpha, wf_pixel_alpha.
    pose proof (wf_canvas_pixels c Hwf) as Hpx.
    rewrite Forall_forall in Hpx. now apply Hpx. }
  repeat split; auto.
  - rewrite Hb. apply length_map.
  - assert (Hs : snd (handleSave (with_drawingCanvas (Some c') st)) =
                 Returned (Some (mkImageFile
                   (mkImageData (width c') (height c')
                      (map (fun p => if 0 <? alpha p then white else black)
                           (bitmap c')))))).
    { unfold handleSave. cbn [drawingCanvasRef with_drawingCanvas].
      unfold getContext2d. rewrite Hav'.
      rewrite (getImageData_nonempty c') by lia.
      rewrite drawImage_nonempty by (cbn; lia).
      rewrite !getImageData_nonempty by (cbn; lia).
      rewrite toDataURL_nonempty by (cbn; lia).
      cbn [dataURLtoFile snd]. do 3 f_equal.
      unfold putImageData, with_data.
      cbn [bitmap with_bitmap data set_globalCompositeOperation with_state].
      rewrite bitmap_fillRect_all.
      cbn [bitmap tempCanvas_like set_height set_width set_fillStyle with_state
           state width height createElement_canvas default_context
           globalCompositeOperation globalAlpha fillStyle].
      assert (Hbl : blank (width c') (height c') =
                    map (fun _ => transparent) (bitmap c')).
      { unfold blank. rewrite Hw', Hh', <- (wf_canvas_length c Hwf), Hb.
        rewrite map_map. apply repeat_as_map. }
      rewrite Hbl. unfold silhouette_loop, final_loop.
      repeat first [rewrite map_map | rewrite zip_layer_map].
      cbn [width height with_bitmap fillRect_all paint tempCanvas_like
           set_height set_width set_fillStyle set_globalCompositeOperation
           with_state].
      f_equal. apply map_ext. intros p.
      apply (saved_pixel_binarize p). }
    rewrite Hs, Hw', Hh'. do 4 f_equal. rewrite Hb, !map_map.
    apply map_ext_in. intros d Hd.
    assert (64 <= alpha (inverted_pixel d)).
    { apply inverted_pixel_alpha, wf_pixel_alpha.
      pose proof (wf_canvas_pixels c Hwf) as Hpx.
      rewrite Forall_forall in Hpx. now apply Hpx. }
    replace (0 <? alpha (inverted_pixel d)) with true; [reflexivity|].
    symmetry. apply Z.ltb_lt. lia.
Qed.

(** C2 at its scenario: on an empty 2 by 2 overlay a stroke that covers
    every pixel paints the highlight everywhere; [invertMask] then leaves
    every pixel at alpha 96 instead of 0, and [handleSave] exports a fully
    white mask where the claim has a fully black one. *)
Theorem invertMask_after_full_stroke_exports_white :
  let st0 := editor_on (canvas_of 2 2 (blank 2 2)) in
  let st1 := drawLine cover_all 0 0 2 2 st0 in
  let st2 := fst (invertMask st1) in
  option_map bitmap (drawingCanvasRef st1) =
    Some [highlight; highlight; highlight; highlight] /\
  snd (invertMask st1) = Returned tt /\
  option_map bitmap (drawingCanvasRef st2) =
    Some (repeat (mkRGBA 96 0 0 96) 4) /\
  snd (handleSave st2) =
    Returned (Some (mkImageFile (mkImageData 2 2 [white; white; white; white]))).
Proof. vm_compute. repeat split. Qed.

(** C3 at a two-pixel overlay, one pixel painted and one empty: the export
    is white, black before and white, white after two [invertMask], so the
    alpha-presence pattern is not restored. *)
Theorem invertMask_twice_changes_export :
  let st := editor_on (canvas_of 2 1 [highlight; transparent]) in
  let st2 := fst (invertMask (fst (invertMask st))) in
  snd (handleSave st) =
    Returned (Some (mkImageFile (mkImageData 2 1 [white; black]))) /\
  option_map bitmap (drawingCanvasRef st2) =
    Some [mkRGBA 104 0 0 104; mkRGBA 96 0 0 96] /\
  snd (handleSave st2) =
    Returned (Some (mkImageFile (mkImageData 2 1 [white; white]))).
Proof. vm_compute. repeat split. Qed.

(** ** Seeding the overlay from an initial mask *)

(** An opaque mask pixel, white or black alike, seeds the highlight: the
    ['source-in'] fill keeps the mask's alpha and drops its colour. *)
Lemma seeded_pixel_opaque (m : RGBA) : alpha m = 255 -> seeded_pixel m = highlight.
Proof.
  destruct m as [r g b a]. cbn [alpha]. intros ->.
  unfold seeded_pixel. cbv zeta.
  set (temp := composite SourceOver
                 (scale (alpha8 1) (premultiply (mkRGBA r g b 255))) transparent).
  assert (Ht : alpha temp = 255) by reflexivity.
  change (composite SourceIn (scale (alpha8 1) (premultiply css_red)) temp)
    with (scale (alpha temp) (scale (alpha8 1) (premultiply css_red))).
  rewrite Ht. reflexivity.
Qed.

(** C4 at a two-pixel mask: [M], exported from an overlay with one painted
    and one empty pixel, is white, black; the editor opened on [M] at the
    same geometry has both overlay pixels at the highlight, and exports
    white, white. *)
Theorem reseeded_mask_exports_white :
  let painted := editor_on (canvas_of 2 1 [highlight; transparent]) in
  let M := mkImageData 2 1 [white; black] in
  let st := resizeCanvases sample_same_size fl_exact
              (mkImageData 2 1 [white; white]) (Some M)
              (mounted (mkContainer 2 1)) in
  snd (handleSave painted) = Returned (Some (mkImageFile M)) /\
  option_map (fun c => (width c, height c)) (drawingCanvasRef st) = Some (2, 1) /\
  option_map bitmap (drawingCanvasRef st) = Some [highlight; highlight] /\
  snd (handleSave st) =
    Returned (Some (mkImageFile (mkImageData 2 1 [white; white]))).
Proof. vm_compute. repeat split. Qed.

(** ** Display geometry *)

Section RationalBounds.
Local Open Scope Q_scope.

Lemma pos_of_mul (q h w : Q) : q * h == w -> 0 < h -> 0 < w -> 0 < q.
Proof. intros. nra. Qed.

Lemma squeeze_lo (u X Y Z : Q) :
  0 <= u -> u <= 1#8 -> 0 <= X ->
  Y <= X * (1 + u) -> X * (1 - u) <= Z -> (1 - 4 * u) * Y <= Z.
Proof.
  intros Hu0 Hu1 HX HY HZ.
  assert ((1 - 4 * u) * Y <= (1 - 4 * u) * (X * (1 + u))) by nra.
  assert ((1 - 4 * u) * (X * (1 + u)) <= X * (1 - u)) by nra.
  lra.
Qed.

Lemma squeeze_hi (u X Y Z : Q) :
  0 <= u -> u <= 1#8 -> 0 <= X ->
  X * (1 - u) <= Y -> Z <= X * (1 + u) -> Z <= (1 + 4 * u) * Y.
Proof.
  intros Hu0 Hu1 HX HY HZ.
  assert ((1 + 4 * u) * (X * (1 - u)) <= (1 + 4 * u) * Y) by nra.
  assert (0 <= u * X) by nra.
  assert (X * (1 + u) <= (1 + 4 * u) * (X * (1 - u))) by nra.
  lra.
Qed.

Lemma ratio_case1 (a h w q ri t H u : Q) :
  0 < a -> 0 < h -> 0 < w -> 0 <= u -> u <= 1#8 ->
  q * h == w ->
  q * (1 - u) <= ri -> ri <= q * (1 + u) ->
  t * ri == a ->
  t * (1 - u) <= H -> H <= t * (1 + u) ->
  (1 - 4 * u) * (w * H) <= a * h /\ a * h <= (1 + 4 * u) * (w * H).
Proof.
  intros Ha Hh Hw Hu0 Hu1 Hq Hri1 Hri2 Ht HH1 HH2.
  assert (0 < q) by (eapply pos_of_mul; eauto).
  assert (0 < ri) by nra.
  assert (0 < t) by (eapply pos_of_mul; eauto).
  split.
  - apply (squeeze_lo u (w * t)); try assumption; try nra.
    assert (w * (1 - u) <= ri * h) by nra.
    nra.
  - apply (squeeze_hi u (w * t)); try assumption; try nra.
    assert (ri * h <= w * (1 + u)) by nra.
    nra.
Qed.

Lemma mul_le (x y c : Q) : x <= y -> 0 <= c -> x * c <= y * c.
Proof. intros. nra. Qed.

Lemma mul_lt (x y c : Q) : x < y -> 0 < c -> x * c < y * c.
Proof. intros. nra. Qed.

Lemma quot_range (q X Y lo hi : Q) :
  q * Y == X -> 0 < Y -> lo * Y <= X -> X <= hi * Y -> lo <= q /\ q <= hi.
Proof. intros E HY Hlo Hhi. split; nra. Qed.

Lemma squeeze2 (u P X Z : Q) :
  0 <= u -> u <= 1#8 -> 0 <= P ->
  P * (1 - u) <= X -> X <= P * (1 + u) ->
  X * (1 - u) <= Z -> Z <= X * (1 + u) ->
  (1 - 4 * u) * P <= Z /\ Z <= (1 + 4 * u) * P.
Proof.
  intros Hu0 Hu1 HP HX1 HX2 HZ1 HZ2.
  pose proof (mul_le _ _ (1 - u) HX1 ltac:(lra)) as A1.
  pose proof (mul_le _ _ (1 + u) HX2 ltac:(lra)) as A2.
  assert (0 <= u * P) by nra.
  assert (0 <= u * (u * P)) by nra.
  assert (u * (u * P) <= (1#8) * (u * P)) by nra.
  split; lra.
Qed.

Lemma ratio_case2 (b h w q ri W u : Q) :
  0 < b -> 0 < h -> 0 < w -> 0 <= u -> u <= 1#8 ->
  q * h == w ->
  q * (1 - u) <= ri -> ri <= q * (1 + u) ->
  (b * ri) * (1 - u) <= W -> W <= (b * ri) * (1 + u) ->
  (1 - 4 * u) * (w * b) <= W * h /\ W * h <= (1 + 4 * u) * (w * b).
Proof.
  intros Hb Hh Hw Hu0 Hu1 Hq Hri1 Hri2 HW1 HW2.
  pose proof (mul_le _ _ h HW1 ltac:(lra)) as A1.
  pose proof (mul_le _ _ h HW2 ltac:(lra)) as A2.
  pose proof (mul_le _ _ (b * h) Hri1 ltac:(nra)) as B1.
  pose proof (mul_le _ _ (b * h) Hri2 ltac:(nra)) as B2.
  assert (E : q * (b * h) == w * b) by (rewrite <- Hq; ring).
  assert (E' : q * u * (b * h) == w * b * u) by (rewrite <- Hq; ring).
  apply (squeeze2 u (w * b) (b * ri * h)); try assumption; try nra.
Qed.

Lemma fit_case1 (a b q ri rc t H u : Q) :
  0 < a -> 0 < b -> 0 <= u -> u <= 1#8 -> u * (2 * b + 1) <= 1 ->
  q * b == a -> q * (1 - u) <= rc -> rc < ri ->
  t * ri == a -> H <= t * (1 + u) ->
  H < b + 1.
Proof.
  intros Ha Hb Hu0 Hu1 Hub Hq Hrc Hlt Ht HH.
  assert (0 < q) by (eapply pos_of_mul; eauto).
  assert (0 < ri) by nra.
  assert (0 < t) by (eapply pos_of_mul; eauto).
  (* ri b > a (1-u) = t ri (1-u) -> b > t (1-u) *)
  assert (a * (1 - u) < ri * b) by nra.
  assert (t * (1 - u) < b).
  { assert (ri * (t * (1 - u)) < ri * b) by nra. nra. }
  assert (H * (1 - u) < b * (1 + u)) by nra.
  assert (b * (1 + u) <= (b + 1) * (1 - u)) by nra.
  nra.
Qed.

Lemma fit_case2 (a b q ri rc W u : Q) :
  0 < a -> 0 < b -> 0 <= u -> u <= 1#8 -> u * (3 * a) < 1 ->
  q * b == a -> rc <= q * (1 + u) -> ri <= rc -> 0 < ri ->
  W <= (b * ri) * (1 + u) ->
  W < a + 1.
Proof.
  intros Ha Hb Hu0 Hu1 Hua Hq Hrc Hle Hri HW.
  assert (b * ri <= a * (1 + u)) by nra.
  assert (W <= a * (1 + u) * (1 + u)) by nra.
  nra.
Qed.

End RationalBounds.

Lemma ToUint32_floor (q : Q) :
  (0 <= q)%Q -> Qfloor q < 2 ^ 32 -> ToUint32 q = Qfloor q.
Proof.
  destruct q as [n d]. unfold ToUint32, Qfloor, Qle. cbn [Qnum Qden].
  intros Hn Hlt. rewrite Z.mul_1_r in Hn. cbn in Hn.
  rewrite Z.quot_div_nonneg by lia.
  apply Z.mod_small. split; [apply Z.div_pos; lia | exact Hlt].
Qed.

Lemma Qfloor_below (q : Q) (n : Z) : (q < inject_Z n + 1)%Q -> Qfloor q <= n.
Proof.
  intros H. pose proof (Qfloor_le q) as Hf.
  assert (Hlt : (inject_Z (Qfloor q) < inject_Z (n + 1))%Q).
  { rewrite inject_Z_plus. change (inject_Z 1) with 1%Q. lra. }
  rewrite <- Zlt_Qlt in Hlt. lia.
Qed.

Lemma Qfloor_nonneg (q : Q) : (0 <= q)%Q -> 0 <= Qfloor q.
Proof.
  intros H. change 0 with (Qfloor 0). now apply Qfloor_resp_le.
Qed.

Section Geometry.

Variable sample : ImageData -> Q -> Q -> Z -> Z -> list RGBA.
Variable fl : Q -> Q.

(** The standard model of rounded arithmetic: a result in the normal range
    is rounded with a relative error of at most the unit roundoff, as
    binary64 rounding to nearest does. *)
Hypothesis fl_error :
  forall x : Q, in_range x ->
    (x * (1 - unit_roundoff) <= fl x /\ fl x <= x * (1 + unit_roundoff))%Q.

Lemma geometry_bounds (box : Container) (img : ImageData) :
  0 < clientWidth box < 2 ^ 32 -> 0 < clientHeight box < 2 ^ 32 ->
  0 < iwidth img < 2 ^ 32 -> 0 < iheight img < 2 ^ 32 ->
  let '(canvasWidth, canvasHeight) := geometry fl box img in
  (0 < canvasWidth /\ 0 < canvasHeight /\
   (1 - 4 * unit_roundoff) * (inject_Z (iwidth img) * canvasHeight)
     <= canvasWidth * inject_Z (iheight img) /\
   canvasWidth * inject_Z (iheight img)
     <= (1 + 4 * unit_roundoff) * (inject_Z (iwidth img) * canvasHeight) /\
   canvasWidth < inject_Z (clientWidth box) + 1 /\
   canvasHeight < inject_Z (clientHeight box) + 1 /\
   (canvasWidth == inject_Z (clientWidth box) \/
    canvasHeight == inject_Z (clientHeight box)))%Q.
Proof.
  destruct box as [a b], img as [w h px]. cbn [clientWidth clientHeight iwidth iheight].
  intros [Ha Ha'] [Hb Hb'] [Hw Hw'] [Hh Hh'].
  apply Z.le_succ_l in Ha, Hb, Hw, Hh.
  rewrite Zle_Qle in Ha, Hb, Hw, Hh. rewrite Zlt_Qlt in Ha', Hb', Hw', Hh'.
  change (inject_Z (Z.succ 0)) with 1%Q in *.
  change (inject_Z (2 ^ 32)) with (4294967296 # 1)%Q in *.
  unfold geometry, fdiv, fmul. cbn [clientWidth clientHeight iwidth iheight].
  set (A := inject_Z a) in *. set (B := inject_Z b) in *.
  set (W := inject_Z w) in *. set (H := inject_Z h) in *.
  assert (Hqc : (A / B * B == A)%Q) by (field; lra).
  assert (Hqi : (W / H * H == W)%Q) by (field; lra).
  assert (Hqc0 : (0 < A / B)%Q) by (eapply pos_of_mul; eauto; lra).
  assert (Hqi0 : (0 < W / H)%Q) by (eapply pos_of_mul; eauto; lra).
  assert (Rc : ((1 # 4294967296) <= A / B /\ A / B <= 4294967296 # 1)%Q).
  { apply (quot_range _ A B); try assumption; lra. }
  assert (Ri : ((1 # 4294967296) <= W / H /\ W / H <= 4294967296 # 1)%Q).
  { apply (quot_range _ W H); try assumption; lra. }
  destruct (fl_error (A / B)) as [Hc1 Hc2]; [unfold in_range; lra|].
  destruct (fl_error (W / H)) as [Hi1 Hi2]; [unfold in_range; lra|].
  assert (Hu0 : (0 <= unit_roundoff)%Q) by (unfold unit_roundoff; lra).
  assert (Hu1 : (unit_roundoff <= 1 # 8)%Q) by (unfold unit_roundoff; lra).
  assert (Rri : ((1 # 8589934592) <= fl (W / H) /\
                 fl (W / H) <= 8589934592 # 1)%Q).
  { unfold unit_roundoff in *. lra. }
  destruct (Qlt_le_dec (fl (A / B)) (fl (W / H))) as [Hlt | Hle].
  - assert (Ht : (A / fl (W / H) * fl (W / H) == A)%Q) by (field; lra).
    assert (Ht0 : (0 < A / fl (W / H))%Q) by (eapply pos_of_mul; eauto; lra).
    assert (Rt : in_range (A / fl (W / H))).
    { apply (quot_range _ A (fl (W / H))); try assumption; lra. }
    destruct (fl_error _ Rt) as [H1 H2].
    destruct (ratio_case1 A H W (W / H) (fl (W / H)) (A / fl (W / H))
                (fl (A / fl (W / H))) unit_roundoff) as [R1 R2];
      try assumption; try lra.
    assert (F : (fl (A / fl (W / H)) < B + 1)%Q).
    { apply (fit_case1 A B (A / B) (fl (W / H)) (fl (A / B))
               (A / fl (W / H)) _ unit_roundoff); try assumption; try lra.
      unfold unit_roundoff. lra. }
    assert (P : (0 < fl (A / fl (W / H)))%Q).
    { unfold unit_roundoff in *. nra. }
    repeat split; try assumption; try lra.
  - assert (Ht0 : (0 < B * fl (W / H))%Q) by nra.
    assert (Rt : in_range (B * fl (W / H))).
    { unfold in_range. split; nra. }
    destruct (fl_error _ Rt) as [H1 H2].
    destruct (ratio_case2 B H W (W / H) (fl (W / H))
                (fl (B * fl (W / H))) unit_roundoff) as [R1 R2];
      try assumption; try lra.
    assert (F : (fl (B * fl (W / H)) < A + 1)%Q).
    { apply (fit_case2 A B (A / B) (fl (W / H)) (fl (A / B))
               _ unit_roundoff); try assumption; try lra.
      unfold unit_roundoff. lra. }
    assert (P : (0 < fl (B * fl (W / H)))%Q).
    { unfold unit_roundoff in *. nra. }
    repeat split; try assumption; try lra.
Qed.

Lemma width_set_size (cw ch : Q) (c : Canvas) :
  width (set_size cw ch c) = ToUint32 cw.
Proof. reflexivity. Qed.

Lemma height_set_size (cw ch : Q) (c : Canvas) :
  height (set_size cw ch c) = ToUint32 ch.
Proof. reflexivity. Qed.

Lemma drawImage_size (source c c' : Canvas) :
  drawImage source c = Normal c' -> width c' = width c /\ height c' = height c.
Proof.
  unfold drawImage. destruct (_ || _); [discriminate|].
  intros E. injection E as <-. split; reflexivity.
Qed.

(** [maskImg.onload] draws on the overlay and keeps its size. *)
Lemma maskImg_onload_size (maskImg : ImageData) (cw ch : Q) (st : Editor)
    (dc : Canvas) :
  drawingCanvasRef st = Some dc ->
  imageCanvasRef (maskImg_onload sample maskImg cw ch st) = imageCanvasRef st /\
  exists dc', drawingCanvasRef (maskImg_onload sample maskImg cw ch st) = Some dc' /\
    width dc' = width dc /\ height dc' = height dc.
Proof.
  intros Hd. unfold maskImg_onload. rewrite Hd.
  set (drawingCtx := set_fillStyle css_red (set_globalAlpha _ _)).
  set (tempCtx := fillRect_all _).
  destruct (drawImage tempCtx drawingCtx) as [c'|e] eqn:E.
  - split; [reflexivity|]. exists c'. split; [reflexivity|].
    apply drawImage_size in E. exact E.
  - split; [reflexivity|]. exists drawingCtx. split; [reflexivity|].
    split; reflexivity.
Qed.

(** After [img.onload] both canvases have the size assigned from
    [canvasWidth] and [canvasHeight]. *)
Lemma img_onload_sizes (box : Container) (img : ImageData)
    (initialMask : option ImageData) (st : Editor) (ic dc : Canvas) :
  imageCanvasRef st = Some ic -> drawingCanvasRef st = Some dc ->
  exists ic' dc',
    imageCanvasRef (img_onload sample fl box img initialMask st) = Some ic' /\
    drawingCanvasRef (img_onload sample fl box img initialMask st) = Some dc' /\
    width ic' = ToUint32 (fst (geometry fl box img)) /\
    height ic' = ToUint32 (snd (geometry fl box img)) /\
    width dc' = ToUint32 (fst (geometry fl box img)) /\
    height dc' = ToUint32 (snd (geometry fl box img)).
Proof.
  intros Hi Hd. unfold img_onload.
  destruct (geometry fl box img) as [cw ch]. cbn [fst snd].
  cbn [imageCanvasRef drawingCanvasRef with_imageCanvas with_drawingCanvas].
  rewrite Hi, Hd. cbn [option_map].
  set (ic1 := set_size cw ch ic). set (dc1 := set_size cw ch dc).
  set (st1 := with_drawingCanvas (Some dc1) (with_imageCanvas (Some ic1) st)).
  set (st2 := match getContext2d (Some ic1) with
              | Some imageCtx => _
              | None => st1
              end).
  assert (H2 : exists ic2, imageCanvasRef st2 = Some ic2 /\
                 drawingCanvasRef st2 = Some dc1 /\
                 width ic2 = ToUint32 cw /\ height ic2 = ToUint32 ch).
  { unfold st2, getContext2d. destruct (contextAvailable ic1).
    - eexists. repeat split.
    - exists ic1. repeat split. }
  destruct H2 as (ic2 & Hi2 & Hd2 & Hw2 & Hh2).
  rewrite Hd2.
  destruct (getContext2d (Some dc1)) as [ctx|];
    [destruct initialMask as [maskImg|] |].
  - destruct (maskImg_onload_size maskImg cw ch st2 dc1 Hd2)
      as (Him & dc' & Hd' & Hw' & Hh').
    exists ic2, dc'. rewrite Him. repeat split; auto.
  - exists ic2, dc1. repeat split; auto.
  - exists ic2, dc1. repeat split; auto.
Qed.

(** C7: after [resizeCanvases] has run on a mounted editor, the image
    canvas and the drawing canvas have the same width and height, namely
    [canvasWidth] and [canvasHeight] truncated; [canvasWidth / canvasHeight]
    is the image's width / height up to a relative error of four unit
    roundoffs; the canvases fit in the container, one side filling it. *)
Theorem resizeCanvases_geometry (img : ImageData)
    (initialMask : option ImageData) (st : Editor)
    (box : Container) (ic dc : Canvas) :
  containerRef st = Some box ->
  imageCanvasRef st = Some ic -> drawingCanvasRef st = Some dc ->
  0 < clientWidth box < 2 ^ 32 -> 0 < clientHeight box < 2 ^ 32 ->
  0 < iwidth img < 2 ^ 32 -> 0 < iheight img < 2 ^ 32 ->
  let st' := resizeCanvases sample fl img initialMask st in
  let canvasWidth := fst (geometry fl box img) in
  let canvasHeight := snd (geometry fl box img) in
  exists ic' dc',
    imageCanvasRef st' = Some ic' /\ drawingCanvasRef st' = Some dc' /\
    width ic' = width dc' /\ height ic' = height dc' /\
    width dc' = Qfloor canvasWidth /\ height dc' = Qfloor canvasHeight /\
    ((1 - 4 * unit_roundoff) * (inject_Z (iwidth img) * canvasHeight)
       <= canvasWidth * inject_Z (iheight img))%Q /\
    (canvasWidth * inject_Z (iheight img)
       <= (1 + 4 * unit_roundoff) * (inject_Z (iwidth img) * canvasHeight))%Q /\
    0 <= width dc' <= clientWidth box /\ 0 <= height dc' <= clientHeight box /\
    (canvasWidth == inject_Z (clientWidth box) \/
     canvasHeight == inject_Z (clientHeight box))%Q.
Proof.
  intros Hb Hi Hd Hcw Hch Hw Hh st' canvasWidth canvasHeight.
  pose proof (geometry_bounds box img Hcw Hch Hw Hh) as G.
  unfold st', resizeCanvases. rewrite Hb, Hi, Hd.
  destruct (img_onload_sizes box img initialMask st ic dc Hi Hd)
    as (ic' & dc' & Hi' & Hd' & Hiw & Hih & Hdw & Hdh).
  fold canvasWidth canvasHeight in Hiw, Hih, Hdw, Hdh.
  unfold canvasWidth, canvasHeight in *.
  destruct (geometry fl box img) as [cw ch]. cbn [fst snd] in *.
  destruct G as (G1 & G2 & G3 & G4 & G5 & G6 & G7).
  pose proof (Qfloor_below cw _ G5) as Fw.
  pose proof (Qfloor_below ch _ G6) as Fh.
  pose proof (Qfloor_nonneg cw ltac:(lra)) as Nw.
  pose proof (Qfloor_nonneg ch ltac:(lra)) as Nh.
  assert (Tw : ToUint32 cw = Qfloor cw) by (apply ToUint32_floor; [lra | lia]).
  assert (Th : ToUint32 ch = Qfloor ch) by (apply ToUint32_floor; [lra | lia]).
  exists ic', dc'. rewrite Hi', Hd', Hiw, Hih, Hdw, Hdh, Tw, Th.
  repeat split; auto; lia.
Qed.

End Geometry.

Lemma fl_exact_error (x : Q) :
  in_range x ->
  (x * (1 - unit_roundoff) <= fl_exact x /\ fl_exact x <= x * (1 + unit_roundoff))%Q.
Proof. unfold in_range, fl_exact, unit_roundoff. intros Hx. split; lra. Qed.

Lemma resizeCanvases_geometry_witness :
  let box := mkContainer 100 100 in
  let img := mkImageData 300 100 [] in
  let st' := resizeCanvases sample_same_size fl_exact img None (mounted box) in
  let canvasWidth := fst (geometry fl_exact box img) in
  let canvasHeight := snd (geometry fl_exact box img) in
  exists ic' dc',
    imageCanvasRef st' = Some ic' /\ drawingCanvasRef st' = Some dc' /\
    width ic' = width dc' /\ height ic' = height dc' /\
    width dc' = Qfloor canvasWidth /\ height dc' = Qfloor canvasHeight /\
    ((1 - 4 * unit_roundoff) * (inject_Z (iwidth img) * canvasHeight)
       <= canvasWidth * inject_Z (iheight img))%Q /\
    (canvasWidth * inject_Z (iheight img)
       <= (1 + 4 * unit_roundoff) * (inject_Z (iwidth img) * canvasHeight))%Q /\
    0 <= width dc' <= clientWidth box /\ 0 <= height dc' <= clientHeight box /\
    (canvasWidth == inject_Z (clientWidth box) \/
     canvasHeight == inject_Z (clientHeight box))%Q.
Proof.
  intros box img.
  apply (resizeCanvases_geometry sample_same_size fl_exact fl_exact_error
           img None (mounted box) box createElement_canvas createElement_canvas
           eq_refl eq_refl eq_refl).
  all: subst box img; cbn [clientWidth clientHeight iwidth iheight]; lia.
Defined.

(** ** The bitmap invariant *)

Ltac canvas_simpl :=
  cbn [width height bitmap state contextAvailable with_bitmap with_state
       set_globalAlpha set_globalCompositeOperation set_fillStyle
       set_strokeStyle set_lineWidth set_lineCap set_lineJoin set_width
       set_height tempCanvas_like globalAlpha globalCompositeOperation
       fillStyle strokeStyle lineWidth lineCap lineJoin default_context
       paint fillRect_all clearRect_all].

Lemma wf_pixel_iff (p : RGBA) :
  wf_pixel p <->
  0 <= red p <= alpha p /\ 0 <= green p <= alpha p /\
  0 <= blue p <= alpha p /\ 0 <= alpha p <= 255.
Proof.
  unfold wf_pixel, wf_pixelb. rewrite !andb_true_iff, !Z.leb_le. lia.
Qed.

Lemma wf_canvas_iff (c : Canvas) :
  wf_canvas c <->
  0 <= width c /\ 0 <= height c /\
  length (bitmap c) = Z.to_nat (width c * height c) /\
  Forall wf_pixel (bitmap c).
Proof.
  unfold wf_canvas, wf_canvasb.
  rewrite !andb_true_iff, !Z.leb_le, Nat.eqb_eq, forallb_forall, Forall_forall.
  unfold wf_pixel. tauto.
Qed.

Lemma wf_scale (k : Z) (p : RGBA) :
  0 <= k <= 255 -> wf_pixel p -> wf_pixel (scale k p).
Proof.
  intros Hk Hp. apply wf_pixel_iff in Hp. apply wf_pixel_iff.
  unfold scale. cbn [red green blue alpha].
  pose proof (mul255_bounds (alpha p) k ltac:(lia) Hk).
  pose proof (mul255_mono_l 0 (red p) k ltac:(lia) ltac:(lia)).
  pose proof (mul255_mono_l 0 (green p) k ltac:(lia) ltac:(lia)).
  pose proof (mul255_mono_l 0 (blue p) k ltac:(lia) ltac:(lia)).
  pose proof (mul255_mono_l (red p) (alpha p) k ltac:(lia) ltac:(lia)).
  pose proof (mul255_mono_l (green p) (alpha p) k ltac:(lia) ltac:(lia)).
  pose proof (mul255_mono_l (blue p) (alpha p) k ltac:(lia) ltac:(lia)).
  rewrite mul255_0_l in *. lia.
Qed.

Lemma wf_composite (op : CompositeOp) (s d : RGBA) :
  wf_pixel s -> wf_pixel d -> wf_pixel (composite op s d).
Proof.
  intros Hs Hd.
  pose proof (proj1 (wf_pixel_iff s) Hs) as Bs.
  pose proof (proj1 (wf_pixel_iff d) Hd) as Bd.
  destruct op; unfold composite.
  - pose proof (wf_scale (255 - alpha s) d ltac:(lia) Hd) as Hsd.
    apply wf_pixel_iff in Hsd. apply wf_pixel_iff.
    pose proof (mul255_bounds (alpha d) (255 - alpha s) ltac:(lia) ltac:(lia)).
    unfold plus, scale in *. cbn [red green blue alpha] in *. lia.
  - apply wf_scale; [lia | assumption].
  - apply wf_scale; [lia | assumption].
Qed.

Lemma wf_premultiply_red : wf_pixel (premultiply css_red).
Proof. reflexivity. Qed.

Lemma wf_transparent : wf_pixel transparent.
Proof. reflexivity. Qed.

Lemma Forall_zip_layer (f : RGBA -> RGBA -> RGBA) (layer bm : list RGBA) :
  (forall s d, In s layer -> wf_pixel d -> wf_pixel (f s d)) ->
  Forall wf_pixel bm -> Forall wf_pixel (zip_layer f layer bm).
Proof.
  revert layer; induction bm as [|d bm IH]; intros [|s layer] Hf Hbm; simpl;
    try assumption.
  - inversion Hbm as [|? ? Hd Hbm']; subst.
    constructor.
    + apply Hf; [now left | assumption].
    + apply IH; [|assumption]. intros s' d' Hin. apply Hf. now right.
Qed.

(** Painting a layer of well-formed pixels under a [globalAlpha] of 1 or
    0.5 keeps the canvas well formed. *)
Lemma wf_paint (layer : list RGBA) (c : Canvas) :
  0 <= alpha8 (globalAlpha (state c)) <= 255 ->
  Forall wf_pixel layer -> wf_canvas c -> wf_canvas (paint layer c).
Proof.
  intros Hga Hl Hc. apply wf_canvas_iff in Hc as (Hw & Hh & Hlen & Hpx).
  apply wf_canvas_iff. unfold paint. cbn [width height bitmap with_bitmap].
  repeat split; try assumption.
  - now rewrite zip_layer_length.
  - apply Forall_zip_layer; [|assumption].
    intros s d Hin Hd. apply wf_composite; [|assumption].
    apply wf_scale; [assumption|].
    rewrite Forall_forall in Hl. now apply Hl.
Qed.

Lemma wf_blank (w h : Z) : Forall wf_pixel (blank w h).
Proof.
  unfold blank. apply Forall_forall. intros p Hp.
  apply repeat_spec in Hp. subst. reflexivity.
Qed.

Lemma wf_tempCanvas_like (c : Canvas) : wf_canvas c -> wf_canvas (tempCanvas_like c).
Proof.
  intros Hc. apply wf_canvas_iff in Hc as (Hw & Hh & Hlen & Hpx).
  apply wf_canvas_iff. cbn [tempCanvas_like set_height set_width width height bitmap].
  repeat split; try assumption.
  - unfold blank. apply repeat_length.
  - apply wf_blank.
Qed.

Lemma wf_with_stroke (d : bool) (p : option Point) (st : Editor) :
  wf_editor st -> wf_editor (with_stroke d p st).
Proof. intros H. exact H. Qed.

Section Invariant.

Variable rasterize :
  Z -> LineCap -> LineJoin -> Point -> Point -> Z -> Z -> nat -> Z.

Lemma wf_drawLine (x1 y1 x2 y2 : Q) (st : Editor) :
  wf_editor st -> wf_editor (drawLine rasterize x1 y1 x2 y2 st).
Proof.
  unfold wf_editor, drawLine, getContext2d.
  destruct (drawingCanvasRef st) as [c|] eqn:Hc; [|now rewrite Hc].
  destruct (contextAvailable c); [|now rewrite Hc].
  intros Hwf. cbn [drawingCanvasRef with_drawingCanvas].
  unfold stroke. apply wf_paint.
  - canvas_simpl. rewrite alpha8_half. lia.
  - apply Forall_forall. intros p Hp. apply in_map_iff in Hp as (i & <- & _).
    apply wf_scale; [unfold coverage; lia | exact wf_premultiply_red].
  - apply wf_canvas_iff in Hwf. apply wf_canvas_iff. exact Hwf.
Qed.

Lemma wf_startDrawing (e : MouseEvent) (st : Editor) :
  wf_editor st -> wf_editor (startDrawing rasterize e st).
Proof.
  intros H. unfold startDrawing. apply wf_drawLine. now apply wf_with_stroke.
Qed.

Lemma wf_draw (e : MouseEvent) (st : Editor) :
  wf_editor st -> wf_editor (draw rasterize e st).
Proof.
  intros H. unfold draw. destruct (isDrawing st); [|exact H]. cbn [negb].
  apply wf_with_stroke. destruct (lastPos st); [|exact H].
  now apply wf_drawLine.
Qed.

End Invariant.

Lemma wf_stopDrawing (st : Editor) : wf_editor st -> wf_editor (stopDrawing st).
Proof. apply wf_with_stroke. Qed.

Lemma wf_clearMask (st : Editor) : wf_editor st -> wf_editor (clearMask st).
Proof.
  unfold wf_editor, clearMask.
  destruct (drawingCanvasRef st) as [c|] eqn:Hc; [|now rewrite Hc].
  destruct (contextAvailable c); [|now rewrite Hc].
  intros Hwf. now apply wf_clearRect_all.
Qed.

Lemma wf_invertMask (st : Editor) : wf_editor st -> wf_editor (fst (invertMask st)).
Proof.
  unfold wf_editor, invertMask.
  destruct (drawingCanvasRef st) as [c|] eqn:Hc; [|cbn [fst]; now rewrite Hc].
  destruct (contextAvailable c); cbn [negb]; [|cbn [fst]; now rewrite Hc].
  intros Hwf.
  assert (Hfill : wf_canvas
            (set_globalCompositeOperation DestinationOut
               (fillRect_all
                  (set_fillStyle css_red
                     (set_globalAlpha (1 # 2)
                        (set_globalCompositeOperation SourceOver
                           (clearRect_all c))))))).
  { pose proof (wf_clearRect_all c Hwf) as Hclr.
    apply wf_canvas_iff in Hclr as (Hw & Hh & Hlen & Hpx).
    apply wf_canvas_iff.
    cbn [width height bitmap set_globalCompositeOperation with_state
         fillRect_all paint with_bitmap set_fillStyle set_globalAlpha].
    repeat split; try assumption.
    - now rewrite zip_layer_length.
    - apply Forall_zip_layer; [|assumption].
      intros s d Hin Hd. apply in_map_iff in Hin as (? & <- & _).
      apply wf_composite; [|assumption].
      apply wf_scale; [canvas_simpl; rewrite alpha8_half; lia | exact wf_premultiply_red]. }
  destruct (drawImage c (tempCanvas_like c)) as [tempCtx|e] eqn:E1;
    [|cbn [fst]; now rewrite Hc].
  assert (Htemp : Forall wf_pixel (bitmap tempCtx)).
  { unfold drawImage in E1. destruct (_ || _); [discriminate|].
    injection E1 as <-.
    pose proof (wf_tempCanvas_like c Hwf) as Ht.
    assert (Hp : wf_canvas (paint (bitmap c) (tempCanvas_like c))).
    { apply wf_paint; [canvas_simpl; rewrite alpha8_one; lia | | exact Ht].
      now apply wf_canvas_pixels. }
    now apply wf_canvas_pixels. }
  destruct (drawImage tempCtx _) as [ctx|e] eqn:E2;
    cbn [fst drawingCanvasRef with_drawingCanvas]; [|exact Hfill].
  unfold drawImage in E2. destruct (_ || _); [discriminate|].
  injection E2 as <-.
  apply wf_paint; [canvas_simpl; rewrite alpha8_half; lia | exact Htemp | exact Hfill].
Qed.

Lemma wf_handleSave (st : Editor) : wf_editor st -> wf_editor (fst (handleSave st)).
Proof.
  intros H. now rewrite handleSave_state.
Qed.

(** ** The invariant over a session *)

Lemma wf_createElement_canvas : wf_canvas createElement_canvas.
Proof. vm_compute. reflexivity. Qed.

Lemma ToUint32_nonneg (q : Q) : 0 <= ToUint32 q.
Proof. unfold ToUint32. apply Z.mod_pos_bound. lia. Qed.

Lemma wf_set_size (cw ch : Q) (c : Canvas) : wf_canvas (set_size cw ch c).
Proof.
  apply wf_canvas_iff.
  cbn [set_size set_height set_width width height bitmap].
  repeat split; try apply ToUint32_nonneg.
  - unfold blank. apply repeat_length.
  - apply wf_blank.
Qed.

Section SessionInvariant.

Variable rasterize :
  Z -> LineCap -> LineJoin -> Point -> Point -> Z -> Z -> nat -> Z.
Variable sample : ImageData -> Q -> Q -> Z -> Z -> list RGBA.
Variable fl : Q -> Q.

(** The sampler renders premultiplied byte pixels. *)
Hypothesis sample_wf :
  forall img dw dh w h, Forall wf_pixel (sample img dw dh w h).

Lemma wf_drawImage_scaled (img : ImageData) (dw dh : Q) (c : Canvas) :
  0 <= alpha8 (globalAlpha (state c)) <= 255 ->
  wf_canvas c -> wf_canvas (drawImage_scaled sample img dw dh c).
Proof.
  intros Hga Hc. unfold drawImage_scaled. apply wf_paint; auto.
Qed.

Lemma wf_maskImg_onload (maskImg : ImageData) (cw ch : Q) (st : Editor) :
  wf_editor st -> wf_editor (maskImg_onload sample maskImg cw ch st).
Proof.
  unfold wf_editor, maskImg_onload.
  destruct (drawingCanvasRef st) as [dc|] eqn:Hd; [|now rewrite Hd].
  intros Hwf.
  set (drawingCtx := set_fillStyle css_red (set_globalAlpha _ _)).
  set (tempCtx := fillRect_all _).
  assert (Hdc : wf_canvas drawingCtx).
  { apply wf_canvas_iff in Hwf. apply wf_canvas_iff. exact Hwf. }
  assert (Htemp : wf_canvas tempCtx).
  { unfold tempCtx, fillRect_all. apply wf_paint.
    - canvas_simpl. unfold drawImage_scaled. canvas_simpl.
      cbn [set_size set_height set_width state default_context globalAlpha].
      rewrite alpha8_one. lia.
    - apply Forall_forall. intros p Hp. apply in_map_iff in Hp as (? & <- & _).
      reflexivity.
    - assert (Ht : wf_canvas (drawImage_scaled sample maskImg cw ch
                                (set_size cw ch createElement_canvas))).
      { apply wf_drawImage_scaled; [|apply wf_set_size].
        cbn [set_size set_height set_width state default_context globalAlpha].
        rewrite alpha8_one. lia. }
      apply wf_canvas_iff in Ht. apply wf_canvas_iff. exact Ht. }
  pose proof (wf_canvas_pixels _ Htemp) as Hpx.
  assert (Hga : 0 <= alpha8 (globalAlpha (state drawingCtx)) <= 255).
  { unfold drawingCtx. canvas_simpl. rewrite alpha8_half. lia. }
  pose proof (wf_paint _ _ Hga Hpx Hdc) as Hp.
  clearbody drawingCtx tempCtx.
  destruct (drawImage tempCtx drawingCtx) as [c'|e] eqn:E;
    cbn [drawingCanvasRef with_drawingCanvas]; [|exact Hdc].
  unfold drawImage in E. destruct (_ || _); [discriminate|].
  injection E as <-. exact Hp.
Qed.

Lemma wf_resizeCanvases (img : ImageData) (initialMask : option ImageData)
    (st : Editor) :
  wf_editor st -> wf_editor (resizeCanvases sample fl img initialMask st).
Proof.
  intros Hwf. unfold resizeCanvases.
  destruct (containerRef st) as [box|]; [|exact Hwf].
  destruct (imageCanvasRef st) as [ic|] eqn:Hi; [|exact Hwf].
  destruct (drawingCanvasRef st) as [dc|] eqn:Hd; [|exact Hwf].
  unfold img_onload. destruct (geometry fl box img) as [cw ch].
  cbn [imageCanvasRef drawingCanvasRef with_imageCanvas with_drawingCanvas].
  rewrite Hi, Hd. cbn [option_map].
  set (ic1 := set_size cw ch ic). set (dc1 := set_size cw ch dc).
  set (st1 := with_drawingCanvas (Some dc1) (with_imageCanvas (Some ic1) st)).
  set (st2 := match getContext2d (Some ic1) with
              | Some imageCtx => _
              | None => st1
              end).
  assert (Hd2 : drawingCanvasRef st2 = Some dc1).
  { unfold st2. destruct (getContext2d (Some ic1)); reflexivity. }
  assert (H2 : wf_editor st2).
  { unfold wf_editor. rewrite Hd2. apply wf_set_size. }
  rewrite Hd2.
  destruct (getContext2d (Some dc1)); [destruct initialMask|]; try exact H2.
  now apply wf_maskImg_onload.
Qed.

Lemma wf_handle (ev : Event) (st : Editor) :
  wf_editor st -> wf_editor (handle rasterize sample fl ev st).
Proof.
  intros H. destruct ev; cbn [handle].
  - now apply wf_resizeCanvases.
  - now apply wf_startDrawing.
  - now apply wf_draw.
  - now apply wf_stopDrawing.
  - now apply wf_clearMask.
  - now apply wf_invertMask.
  - now apply wf_handleSave.
  - exact H.
  - exact H.
Qed.

(** X9. Through any session the overlay stays a well-formed canvas: its bitmap
    holds width times height premultiplied byte pixels. *)
Lemma session_wf (box : Container) (evs : list Event) :
  wf_editor (session rasterize sample fl box evs).
Proof.
  unfold session.
  assert (H0 : wf_editor (mounted box)) by exact wf_createElement_canvas.
  revert H0. generalize (mounted box).
  induction evs as [|ev evs IH]; intros st H; cbn [fold_left]; [exact H|].
  apply IH. now apply wf_handle.
Qed.

End SessionInvariant.

(** ** Seeding, in general *)

(** On a freshly sized, still empty overlay, with the mask drawn at its own
    size, [maskImg.onload] maps [seeded_pixel] over the mask. *)
Lemma maskImg_onload_seeds (maskImg : ImageData) (cw ch : Q) (st : Editor)
    (dc : Canvas) :
  drawingCanvasRef st = Some dc ->
  0 < ToUint32 cw -> 0 < ToUint32 ch ->
  bitmap dc = blank (ToUint32 cw) (ToUint32 ch) ->
  length (data maskImg) = Z.to_nat (ToUint32 cw * ToUint32 ch) ->
  exists dc',
    drawingCanvasRef (maskImg_onload sample_same_size maskImg cw ch st) = Some dc' /\
    width dc' = width dc /\ height dc' = height dc /\
    bitmap dc' = map seeded_pixel (data maskImg).
Proof.
  intros Hd Hw Hh Hb Hlen. unfold maskImg_onload. rewrite Hd.
  rewrite drawImage_nonempty by (canvas_simpl; assumption).
  eexists. split; [reflexivity|]. split; [reflexivity|]. split; [reflexivity|].
  rewrite bitmap_paint.
  cbn [bitmap state set_globalCompositeOperation set_globalAlpha set_fillStyle
       with_state globalCompositeOperation globalAlpha].
  rewrite bitmap_fillRect_all.
  unfold drawImage_scaled, sample_same_size.
  cbn [bitmap state set_globalCompositeOperation set_globalAlpha set_fillStyle
       with_state globalCompositeOperation globalAlpha fillStyle
       paint with_bitmap set_size set_height set_width default_context
       width height].
  rewrite Hb.
  assert (Hbl : blank (ToUint32 cw) (ToUint32 ch) =
                map (fun _ => transparent) (data maskImg)).
  { unfold blank. rewrite <- Hlen. apply repeat_as_map. }
  rewrite Hbl.
  repeat first [rewrite map_map | rewrite zip_layer_map].
  reflexivity.
Qed.

(** Opening the editor on a mask whose pixels are all opaque, as every mask
    [handleSave] exports is, at the mask's own geometry, gives every overlay
    pixel the highlight. *)
Lemma resizeCanvases_seeds_all (fl : Q -> Q) (img M : ImageData) (st : Editor)
    (box : Container) (ic dc : Canvas) :
  containerRef st = Some box ->
  imageCanvasRef st = Some ic -> drawingCanvasRef st = Some dc ->
  contextAvailable dc = true ->
  0 < ToUint32 (fst (geometry fl box img)) ->
  0 < ToUint32 (snd (geometry fl box img)) ->
  length (data M) =
    Z.to_nat (ToUint32 (fst (geometry fl box img)) *
              ToUint32 (snd (geometry fl box img))) ->
  Forall (fun m => alpha m = 255) (data M) ->
  exists dc',
    drawingCanvasRef (resizeCanvases sample_same_size fl img (Some M) st) = Some dc' /\
    bitmap dc' = map (fun _ => highlight) (data M).
Proof.
  intros Hb Hi Hd Hav Hw Hh Hlen Hop.
  unfold resizeCanvases. rewrite Hb, Hi, Hd. unfold img_onload.
  destruct (geometry fl box img) as [cw ch]. cbn [fst snd] in *.
  cbn [imageCanvasRef drawingCanvasRef with_imageCanvas with_drawingCanvas].
  rewrite Hi, Hd. cbn [option_map].
  set (ic1 := set_size cw ch ic). set (dc1 := set_size cw ch dc).
  set (st1 := with_drawingCanvas (Some dc1) (with_imageCanvas (Some ic1) st)).
  set (st2 := match getContext2d (Some ic1) with
              | Some imageCtx => _
              | None => st1
              end).
  assert (Hd2 : drawingCanvasRef st2 = Some dc1).
  { unfold st2. destruct (getContext2d (Some ic1)); reflexivity. }
  rewrite Hd2. unfold getContext2d at 1.
  assert (Hav1 : contextAvailable dc1 = true) by exact Hav.
  rewrite Hav1.
  destruct (maskImg_onload_seeds M cw ch st2 dc1 Hd2 Hw Hh eq_refl Hlen)
    as (dc' & Hd' & _ & _ & Hbm).
  exists dc'. split; [exact Hd'|]. rewrite Hbm.
  apply map_ext_in. intros m Hm. apply seeded_pixel_opaque.
  rewrite Forall_forall in Hop. now apply Hop.
Qed.

(** * Further properties of the masking editor *)

(** ** What one stroke does to the selection *)

Lemma mul255_255_l (a : Z) : mul255 255 a = a.
Proof. unfold mul255. rewrite Z.mul_comm. apply mul255_255_r. Qed.

Lemma mul255_le_l (a k : Z) : 0 <= a -> k <= 255 -> mul255 a k <= a.
Proof.
  intros Ha Hk. unfold mul255.
  apply Z.lt_succ_r, Z.div_lt_upper_bound; nia.
Qed.

Lemma mul255_nonneg (a k : Z) : 0 <= a -> 0 <= k -> 0 <= mul255 a k.
Proof. intros Ha Hk. unfold mul255. apply Z.div_pos; nia. Qed.

(** Half of [globalAlpha = 0.5] reaches the bitmap for any covered pixel. *)
Lemma brush_alpha (cov : Z) :
  0 <= cov <= 255 ->
  0 <= mul255 cov 128 <= 128 /\ (0 < mul255 cov 128 <-> 0 < cov).
Proof.
  intros Hc. pose proof (mul255_bounds cov 128 Hc ltac:(lia)) as Hb.
  split; [exact Hb|]. split.
  - intros Hpos. destruct (Z.eq_dec cov 0) as [->|]; [discriminate Hpos | lia].
  - intros Hpos. unfold mul255. apply Z.div_str_pos. lia.
Qed.

Lemma nth_error_combine_seq {A : Type} (l : list A) (k i : nat) (a : A) :
  nth_error l i = Some a ->
  nth_error (combine (seq k (length l)) l) i = Some ((k + i)%nat, a).
Proof.
  revert k i; induction l as [|b l IH]; intros k [|i] H; try discriminate H.
  - cbn in *. injection H as ->. now rewrite Nat.add_0_r.
  - cbn in *. rewrite (IH (S k) i H). now rewrite Nat.add_succ_r.
Qed.

Section StrokeEffect.

Variable rasterize :
  Z -> LineCap -> LineJoin -> Point -> Point -> Z -> Z -> nat -> Z.

(** The pixel a segment of [drawLine] leaves at index [i], from the pixel
    [p] it found there. *)
Lemma drawLine_pixel (x1 y1 x2 y2 : Q) (st : Editor) (c : Canvas)
    (i : nat) (p : RGBA) :
  drawingCanvasRef st = Some c -> contextAvailable c = true ->
  nth_error (bitmap c) i = Some p ->
  exists cv,
    drawingCanvasRef (drawLine rasterize x1 y1 x2 y2 st) = Some cv /\
    width cv = width c /\ height cv = height c /\
    contextAvailable cv = true /\
    nth_error (bitmap cv) i =
      Some (composite (if isErasing st then DestinationOut else SourceOver)
              (scale 128
                 (scale (Z.max 0 (Z.min 255
                           (rasterize (brushSize st) CapRound JoinRound
                              (mkPoint x1 y1) (mkPoint x2 y2)
                              (width c) (height c) i)))
                        (premultiply css_red)))
              p).
Proof.
  intros Hc Hav Hp. rewrite (drawLine_available rasterize _ _ _ _ st c Hc Hav).
  eexists. split; [reflexivity|]. repeat split; try assumption.
  rewrite bitmap_stroke.
  rewrite nth_error_map.
  change (bitmap (brush_canvas st c)) with (bitmap c).
  rewrite (nth_error_combine_seq _ 0 i p Hp). cbn [option_map fst snd Nat.add].
  unfold coverage, brush_canvas.
  cbn [state width height set_globalCompositeOperation set_globalAlpha
       set_lineJoin set_lineCap set_lineWidth set_strokeStyle with_state
       lineWidth lineCap lineJoin globalAlpha globalCompositeOperation
       strokeStyle].
  rewrite alpha8_half. reflexivity.
Qed.

(** What one segment does to the alpha of a pixel: painting adds the
    brush's alpha, erasing takes at most half away. *)
Lemma paint_alpha (cov : Z) (p : RGBA) :
  wf_pixel p ->
  let q := composite SourceOver
             (scale 128 (scale (Z.max 0 (Z.min 255 cov)) (premultiply css_red))) p in
  (0 < alpha q <-> 0 < alpha p \/ 0 < cov) /\ alpha p <= alpha q /\
  (cov <= 0 -> q = p).
Proof.
  intros Hp q. apply wf_pixel_alpha in Hp as Ha.
  set (k := Z.max 0 (Z.min 255 cov)) in *.
  assert (Hk : 0 <= k <= 255) by (unfold k; lia).
  destruct (brush_alpha k Hk) as [Hs Hpos].
  assert (Eq : alpha q = mul255 k 128 + mul255 (alpha p) (255 - mul255 k 128)).
  { unfold q, composite, plus, scale. cbn [alpha red green blue premultiply css_red].
    now rewrite mul255_255_l. }
  assert (Ht : 0 <= mul255 (alpha p) (255 - mul255 k 128))
    by (apply mul255_nonneg; lia).
  destruct (Z_lt_le_dec 0 cov) as [Hc | Hc].
  - assert (0 < k) by (unfold k; lia).
    assert (0 < mul255 k 128) by (apply Hpos; assumption).
    repeat split; try lia.
    + (* alpha p <= alpha q: the brush adds s and takes at most s *)
      rewrite Eq.
      set (s := mul255 k 128) in *.
      unfold mul255. 
      assert (alpha p - s <= (alpha p * (255 - s) + 127) / 255); [|lia].
      apply Z.div_le_lower_bound; nia.
  - assert (Hk0 : k = 0) by (unfold k; lia).
    assert (Eqp : q = p).
    { unfold q. rewrite Hk0.
      change (scale 128 (scale 0 (premultiply css_red))) with transparent.
      unfold composite. change (255 - alpha transparent) with 255.
      rewrite scale_255. destruct p; reflexivity. }
    rewrite Eqp. repeat split; try lia.
Qed.

Lemma erase_alpha (cov : Z) (p : RGBA) :
  wf_pixel p ->
  let q := composite DestinationOut
             (scale 128 (scale (Z.max 0 (Z.min 255 cov)) (premultiply css_red))) p in
  alpha p / 2 <= alpha q <= alpha p.
Proof.
  intros Hp q. apply wf_pixel_alpha in Hp as Ha.
  set (k := Z.max 0 (Z.min 255 cov)) in *.
  assert (Hk : 0 <= k <= 255) by (unfold k; lia).
  destruct (brush_alpha k Hk) as [Hs _].
  assert (Eq : alpha q = mul255 (alpha p) (255 - mul255 k 128)).
  { unfold q, composite, scale. cbn [alpha red green blue premultiply css_red].
    now rewrite mul255_255_l. }
  rewrite Eq. set (s := mul255 k 128) in *. split.
  - unfold mul255. apply Z.div_le_lower_bound; [lia|].
    pose proof (Z.mul_div_le (alpha p) 2 ltac:(lia)). nia.
  - apply mul255_le_l; lia.
Qed.

(** The overlay and the export after one segment, pixel by pixel. *)
Lemma drawLine_export (x1 y1 x2 y2 : Q) (st : Editor) (c : Canvas) :
  drawingCanvasRef st = Some c -> contextAvailable c = true -> wf_canvas c ->
  0 < width c -> 0 < height c ->
  exists cv out,
    drawingCanvasRef (drawLine rasterize x1 y1 x2 y2 st) = Some cv /\
    snd (handleSave (drawLine rasterize x1 y1 x2 y2 st)) =
      Returned (Some (mkImageFile out)) /\
    iwidth out = width c /\ iheight out = height c /\
    forall (i : nat) (p : RGBA), nth_error (bitmap c) i = Some p ->
      exists q,
        q = composite (if isErasing st then DestinationOut else SourceOver)
              (scale 128
                 (scale (Z.max 0 (Z.min 255
                           (rasterize (brushSize st) CapRound JoinRound
                              (mkPoint x1 y1) (mkPoint x2 y2)
                              (width c) (height c) i)))
                        (premultiply css_red)))
              p /\
        nth_error (bitmap cv) i = Some q /\
        nth_error (data out) i = Some (if 0 <? alpha q then white else black).
Proof.
  intros Hc Hav Hwf Hw Hh.
  assert (Hwfe : wf_editor (drawLine rasterize x1 y1 x2 y2 st)).
  { apply wf_drawLine. unfold wf_editor. now rewrite Hc. }
  pose proof (drawLine_available rasterize x1 y1 x2 y2 st c Hc Hav) as E.
  set (cv := stroke rasterize _ _ _) in E.
  assert (Hcv : drawingCanvasRef (drawLine rasterize x1 y1 x2 y2 st) = Some cv)
    by (rewrite E; reflexivity).
  unfold wf_editor in Hwfe. rewrite Hcv in Hwfe.
  assert (Hwcv : width cv = width c) by reflexivity.
  assert (Hhcv : height cv = height c) by reflexivity.
  assert (Havcv : contextAvailable cv = true) by exact Hav.
  exists cv, (mkImageData (width cv) (height cv) (binarize (bitmap cv))).
  split; [exact Hcv|]. split.
  { rewrite (handleSave_exports _ cv Hcv Havcv Hwfe); [reflexivity | lia | lia]. }
  split; [exact Hwcv|]. split; [exact Hhcv|].
  intros i p Hp.
  destruct (drawLine_pixel x1 y1 x2 y2 st c i p Hc Hav Hp)
    as (cv' & Hcv' & _ & _ & _ & Hpix).
  rewrite Hcv in Hcv'. injection Hcv' as <-.
  eexists. split; [reflexivity|]. split; [exact Hpix|].
  cbn [data]. unfold binarize. rewrite nth_error_map, Hpix. reflexivity.
Qed.

(** X1. A segment painted in brush mode selects exactly the pixels the brush
    touches, and keeps every pixel selected before: in the mask exported
    afterwards a pixel is white when it had alpha above zero or the brush
    covers it, and black otherwise. *)
Theorem paint_then_export (x1 y1 x2 y2 : Q) (st : Editor) (c : Canvas) :
  drawingCanvasRef st = Some c -> contextAvailable c = true -> wf_canvas c ->
  0 < width c -> 0 < height c -> isErasing st = false ->
  exists out,
    snd (handleSave (drawLine rasterize x1 y1 x2 y2 st)) =
      Returned (Some (mkImageFile out)) /\
    iwidth out = width c /\ iheight out = height c /\
    forall (i : nat) (p : RGBA), nth_error (bitmap c) i = Some p ->
      nth_error (data out) i =
      Some (if (0 <? alpha p) ||
               (0 <? rasterize (brushSize st) CapRound JoinRound
                       (mkPoint x1 y1) (mkPoint x2 y2) (width c) (height c) i)
            then white else black).
Proof.
  intros Hc Hav Hwf Hw Hh He.
  destruct (drawLine_export x1 y1 x2 y2 st c Hc Hav Hwf Hw Hh)
    as (cv & out & _ & Hout & Hiw & Hih & Hpix).
  exists out. repeat split; try assumption.
  intros i p Hp. destruct (Hpix i p Hp) as (q & Hq & _ & Ho).
  rewrite Ho. f_equal. rewrite He in Hq.
  assert (Hwfp : wf_pixel p).
  { pose proof (wf_canvas_pixels c Hwf) as Hall. rewrite Forall_forall in Hall.
    apply Hall. eapply nth_error_In; eassumption. }
  destruct (paint_alpha
              (rasterize (brushSize st) CapRound JoinRound
                 (mkPoint x1 y1) (mkPoint x2 y2) (width c) (height c) i)
              p Hwfp) as (Hiff & _ & _).
  cbv zeta in Hiff. rewrite <- Hq in Hiff.
  destruct (0 <? alpha q) eqn:Eq.
  - apply Z.ltb_lt in Eq. apply Hiff in Eq.
    replace (_ || _) with true; [reflexivity|].
    symmetry. apply orb_true_iff. rewrite !Z.ltb_lt. exact Eq.
  - apply Z.ltb_ge in Eq.
    replace (_ || _) with false; [reflexivity|].
    symmetry. apply orb_false_iff. rewrite !Z.ltb_ge.
    split; apply Z.nlt_ge; intros Hn; apply (Z.lt_irrefl 0);
      apply Z.lt_le_trans with (alpha q); auto; apply Hiff; auto.
Qed.

(** X2. A segment drawn in erase mode selects nothing new and removes at most
    half of a pixel's alpha: a pixel exported white afterwards was white
    before, and a pixel with alpha two or more is still exported white. *)
Theorem erase_halves_at_most (x1 y1 x2 y2 : Q) (st : Editor) (c : Canvas) :
  drawingCanvasRef st = Some c -> contextAvailable c = true -> wf_canvas c ->
  0 < width c -> 0 < height c -> isErasing st = true ->
  exists cv out,
    drawingCanvasRef (drawLine rasterize x1 y1 x2 y2 st) = Some cv /\
    snd (handleSave (drawLine rasterize x1 y1 x2 y2 st)) =
      Returned (Some (mkImageFile out)) /\
    forall (i : nat) (p : RGBA), nth_error (bitmap c) i = Some p ->
      exists q, nth_error (bitmap cv) i = Some q /\
        alpha p / 2 <= alpha q <= alpha p /\
        (nth_error (data out) i = Some white -> 0 < alpha p) /\
        (2 <= alpha p -> nth_error (data out) i = Some white).
Proof.
  intros Hc Hav Hwf Hw Hh He.
  destruct (drawLine_export x1 y1 x2 y2 st c Hc Hav Hwf Hw Hh)
    as (cv & out & Hcv & Hout & _ & _ & Hpix).
  exists cv, out. repeat split; try assumption.
  intros i p Hp. destruct (Hpix i p Hp) as (q & Hq & Hb & Ho).
  exists q. split; [exact Hb|]. rewrite He in Hq.
  assert (Hwfp : wf_pixel p).
  { pose proof (wf_canvas_pixels c Hwf) as Hall. rewrite Forall_forall in Hall.
    apply Hall. eapply nth_error_In; eassumption. }
  pose proof (erase_alpha
                (rasterize (brushSize st) CapRound JoinRound
                   (mkPoint x1 y1) (mkPoint x2 y2) (width c) (height c) i)
                p Hwfp) as Hr.
  cbv zeta in Hr. rewrite <- Hq in Hr.
  split; [exact Hr|]. rewrite Ho. split.
  - destruct (0 <? alpha q) eqn:Eq; [|discriminate].
    apply Z.ltb_lt in Eq. lia.
  - intros H2. assert (1 <= alpha p / 2) by (apply Z.div_le_lower_bound; lia).
    replace (0 <? alpha q) with true; [reflexivity|].
    symmetry. apply Z.ltb_lt. lia.
Qed.

End StrokeEffect.

Lemma paint_then_export_witness :
  let c := canvas_of 2 1 [transparent; transparent] in
  let st := editor_on c in
  exists out,
    snd (handleSave (drawLine cover_first 0 0 0 0 st)) =
      Returned (Some (mkImageFile out)) /\
    iwidth out = width c /\ iheight out = height c /\
    forall (i : nat) (p : RGBA), nth_error (bitmap c) i = Some p ->
      nth_error (data out) i =
      Some (if (0 <? alpha p) ||
               (0 <? cover_first (brushSize st) CapRound JoinRound
                       (mkPoint 0 0) (mkPoint 0 0) (width c) (height c) i)
            then white else black).
Proof.
  intros c st.
  apply (paint_then_export cover_first 0 0 0 0 st c); reflexivity.
Defined.

Lemma erase_halves_at_most_witness :
  let c := canvas_of 2 1 [highlight; transparent] in
  let st := setIsErasing true (editor_on c) in
  exists cv out,
    drawingCanvasRef (drawLine cover_first 0 0 0 0 st) = Some cv /\
    snd (handleSave (drawLine cover_first 0 0 0 0 st)) =
      Returned (Some (mkImageFile out)) /\
    forall (i : nat) (p : RGBA), nth_error (bitmap c) i = Some p ->
      exists q, nth_error (bitmap cv) i = Some q /\
        alpha p / 2 <= alpha q <= alpha p /\
        (nth_error (data out) i = Some white -> 0 < alpha p) /\
        (2 <= alpha p -> nth_error (data out) i = Some white).
Proof.
  intros c st.
  apply (erase_halves_at_most cover_first 0 0 0 0 st c); reflexivity.
Defined.

(** X3. [drawLine] sets every context attribute it draws with, so what an
    earlier operation left in the context ([invertMask] leaves
    ['destination-out'], a resize the defaults) does not reach the stroke:
    two overlays with the same pixels get the same pixels. *)
Theorem drawLine_ignores_context_state
    (rasterize : Z -> LineCap -> LineJoin -> Point -> Point -> Z -> Z -> nat -> Z)
    (x1 y1 x2 y2 : Q) (st st' : Editor) (c c' : Canvas) :
  drawingCanvasRef st = Some c -> drawingCanvasRef st' = Some c' ->
  width c' = width c -> height c' = height c -> bitmap c' = bitmap c ->
  contextAvailable c' = contextAvailable c ->
  brushSize st' = brushSize st -> isErasing st' = isErasing st ->
  option_map bitmap (drawingCanvasRef (drawLine rasterize x1 y1 x2 y2 st')) =
  option_map bitmap (drawingCanvasRef (drawLine rasterize x1 y1 x2 y2 st)).
Proof.
  intros Hc Hc' Hw Hh Hb Hav Hbs He.
  destruct (contextAvailable c) eqn:Ea.
  - rewrite (drawLine_available rasterize _ _ _ _ st c Hc Ea).
    rewrite (drawLine_available rasterize _ _ _ _ st' c' Hc' Hav).
    cbn [drawingCanvasRef with_drawingCanvas option_map]. f_equal.
    rewrite !bitmap_stroke. unfold coverage, brush_canvas.
    cbn [state width height bitmap set_globalCompositeOperation set_globalAlpha
         set_lineJoin set_lineCap set_lineWidth set_strokeStyle with_state
         lineWidth lineCap lineJoin globalAlpha globalCompositeOperation
         strokeStyle].
    now rewrite Hw, Hh, Hb, Hbs, He.
  - unfold drawLine, getContext2d. rewrite Hc, Hc', Hav, Ea.
    rewrite Hc, Hc'. cbn [option_map]. now rewrite Hb.
Qed.

Lemma drawLine_ignores_context_state_witness :
  let c := canvas_of 2 1 [highlight; transparent] in
  let st := editor_on c in
  option_map bitmap
    (drawingCanvasRef (drawLine cover_first 0 0 0 0
       (editor_on (set_globalCompositeOperation DestinationOut c)))) =
  option_map bitmap (drawingCanvasRef (drawLine cover_first 0 0 0 0 st)).
Proof.
  intros c st.
  apply (drawLine_ignores_context_state cover_first 0 0 0 0 st
           (editor_on (set_globalCompositeOperation DestinationOut c))
           c (set_globalCompositeOperation DestinationOut c));
    reflexivity.
Defined.

(** ** Resizing *)

Section Resizing.

Variable sample : ImageData -> Q -> Q -> Z -> Z -> list RGBA.
Variable fl : Q -> Q.

(** X4. A resize without an initial mask discards whatever was painted: the
    overlay comes out fully transparent, with a reset context, and the
    stroke state and the brush are as before. *)
Theorem resizeCanvases_wipes_overlay (img : ImageData) (st : Editor)
    (box : Container) (ic dc : Canvas) :
  containerRef st = Some box ->
  imageCanvasRef st = Some ic -> drawingCanvasRef st = Some dc ->
  let st' := resizeCanvases sample fl img None st in
  exists dc',
    drawingCanvasRef st' = Some dc' /\
    Forall (fun p => p = transparent) (bitmap dc') /\
    length (bitmap dc') = Z.to_nat (width dc' * height dc') /\
    state dc' = default_context /\
    isDrawing st' = isDrawing st /\ lastPos st' = lastPos st /\
    brushSize st' = brushSize st /\ isErasing st' = isErasing st.
Proof.
  intros Hb Hi Hd st'. unfold st', resizeCanvases. rewrite Hb, Hi, Hd.
  unfold img_onload. destruct (geometry fl box img) as [cw ch].
  cbn [imageCanvasRef drawingCanvasRef with_imageCanvas with_drawingCanvas].
  rewrite Hi, Hd. cbn [option_map].
  set (ic1 := set_size cw ch ic). set (dc1 := set_size cw ch dc).
  exists dc1.
  assert (Hbl : Forall (fun p => p = transparent) (bitmap dc1)).
  { apply Forall_forall. intros p Hp. now apply repeat_spec in Hp. }
  assert (Hlen : length (bitmap dc1) = Z.to_nat (width dc1 * height dc1)).
  { apply repeat_length. }
  destruct (getContext2d (Some ic1));
    cbn [imageCanvasRef drawingCanvasRef with_imageCanvas with_drawingCanvas];
    destruct (getContext2d (Some dc1)); repeat split; auto.
Qed.

End Resizing.

Lemma resizeCanvases_wipes_overlay_witness :
  let st := editor_on (canvas_of 2 1 [highlight; highlight]) in
  let st' := resizeCanvases sample_same_size fl_exact
               (mkImageData 2 1 [white; white]) None st in
  exists dc',
    drawingCanvasRef st' = Some dc' /\
    Forall (fun p => p = transparent) (bitmap dc') /\
    length (bitmap dc') = Z.to_nat (width dc' * height dc') /\
    state dc' = default_context /\
    isDrawing st' = isDrawing st /\ lastPos st' = lastPos st /\
    brushSize st' = brushSize st /\ isErasing st' = isErasing st.
Proof.
  intros st.
  apply (resizeCanvases_wipes_overlay sample_same_size fl_exact
           (mkImageData 2 1 [white; white]) st (mkContainer 2 1)
           (canvas_of 2 1 (blank 2 1)) (canvas_of 2 1 [highlight; highlight]));
    reflexivity.
Defined.


(** Two canvases that agree on context availability and position are sized
    to the same canvas. *)
Lemma set_size_ext (cw ch : Q) (a b : Canvas) :
  contextAvailable a = contextAvailable b ->
  rect_left a = rect_left b -> rect_top a = rect_top b ->
  set_size cw ch a = set_size cw ch b.
Proof.
  intros Ha Hl Ht. unfold set_size, set_height, set_width.
  cbn [width height contextAvailable rect_left rect_top]. now rewrite Ha, Hl, Ht.
Qed.

Lemma same_place_trans (a b c : Canvas) :
  same_place a b -> same_place b c -> same_place a c.
Proof. unfold same_place. intros (? & ? & ?) (? & ? & ?). repeat split; congruence. Qed.

Section ResizeTwice.

Variable sample : ImageData -> Q -> Q -> Z -> Z -> list RGBA.
Variable fl : Q -> Q.

Lemma maskImg_onload_frame (maskImg : ImageData) (cw ch : Q) (st : Editor)
    (dc : Canvas) :
  drawingCanvasRef st = Some dc ->
  let st' := maskImg_onload sample maskImg cw ch st in
  containerRef st' = containerRef st /\
  imageCanvasRef st' = imageCanvasRef st /\
  isDrawing st' = isDrawing st /\ lastPos st' = lastPos st /\
  brushSize st' = brushSize st /\ isErasing st' = isErasing st /\
  exists dc', drawingCanvasRef st' = Some dc' /\ same_place dc' dc.
Proof.
  intros Hd st'. unfold st', maskImg_onload. rewrite Hd.
  set (drawingCtx := set_fillStyle css_red (set_globalAlpha _ _)).
  set (tempCtx := fillRect_all _).
  assert (Hs : same_place drawingCtx dc) by (repeat split).
  clearbody drawingCtx tempCtx.
  destruct (drawImage tempCtx drawingCtx) as [c'|e] eqn:E.
  - repeat split. exists c'. split; [reflexivity|].
    unfold drawImage in E. destruct (_ || _); [discriminate|].
    injection E as <-. exact Hs.
  - repeat split. exists drawingCtx. split; [reflexivity | exact Hs].
Qed.

Lemma img_onload_frame (box : Container) (img : ImageData)
    (initialMask : option ImageData) (st : Editor) (ic dc : Canvas) :
  imageCanvasRef st = Some ic -> drawingCanvasRef st = Some dc ->
  let st' := img_onload sample fl box img initialMask st in
  containerRef st' = containerRef st /\
  isDrawing st' = isDrawing st /\ lastPos st' = lastPos st /\
  brushSize st' = brushSize st /\ isErasing st' = isErasing st /\
  exists ic' dc',
    imageCanvasRef st' = Some ic' /\ drawingCanvasRef st' = Some dc' /\
    same_place ic' ic /\ same_place dc' dc.
Proof.
  intros Hi Hd st'. unfold st', img_onload.
  destruct (geometry fl box img) as [cw ch].
  cbn [imageCanvasRef drawingCanvasRef with_imageCanvas with_drawingCanvas].
  rewrite Hi, Hd. cbn [option_map].
  set (ic1 := set_size cw ch ic). set (dc1 := set_size cw ch dc).
  set (st1 := with_drawingCanvas (Some dc1) (with_imageCanvas (Some ic1) st)).
  set (st2 := match getContext2d (Some ic1) with
              | Some imageCtx => _
              | None => st1
              end).
  assert (H2 : containerRef st2 = containerRef st /\
               isDrawing st2 = isDrawing st /\ lastPos st2 = lastPos st /\
               brushSize st2 = brushSize st /\ isErasing st2 = isErasing st /\
               drawingCanvasRef st2 = Some dc1 /\
               exists ic2, imageCanvasRef st2 = Some ic2 /\ same_place ic2 ic).
  { unfold st2, getContext2d. destruct (contextAvailable ic1).
    - repeat split. eexists. split; [reflexivity|]. repeat split.
    - repeat split. exists ic1. repeat split. }
  destruct H2 as (Hc2 & Hd2 & Hl2 & Hb2 & He2 & Hdc2 & ic2 & Hic2 & Hs2).
  clearbody st2. rewrite Hdc2.
  assert (Hsd : same_place dc1 dc) by (repeat split).
  destruct (getContext2d (Some dc1)) as [ctx|];
    [destruct initialMask as [maskImg|] |].
  - destruct (maskImg_onload_frame maskImg cw ch st2 dc1 Hdc2)
      as (Fc & Fi & Fd & Fl & Fb & Fe & dc' & Fdc & Fs).
    rewrite Fc, Fd, Fl, Fb, Fe, Fi.
    do 5 (split; [assumption|]).
    exists ic2, dc'. do 3 (split; [assumption|]).
    exact (same_place_trans _ _ _ Fs Hsd).
  - do 5 (split; [assumption|]). exists ic2, dc1.
    split; [exact Hic2|]. split; [exact Hdc2|]. split; [exact Hs2 | exact Hsd].
  - do 5 (split; [assumption|]). exists ic2, dc1.
    split; [exact Hic2|]. split; [exact Hdc2|]. split; [exact Hs2 | exact Hsd].
Qed.

(** What [img.onload] computes depends on the editor only through the
    refs' availability and position, not through what the canvases hold. *)
Lemma img_onload_ext (box : Container) (img : ImageData)
    (initialMask : option ImageData) (st st' : Editor) (ic dc ic' dc' : Canvas) :
  imageCanvasRef st = Some ic -> drawingCanvasRef st = Some dc ->
  imageCanvasRef st' = Some ic' -> drawingCanvasRef st' = Some dc' ->
  same_place ic' ic -> same_place dc' dc ->
  containerRef st' = containerRef st ->
  isDrawing st' = isDrawing st -> lastPos st' = lastPos st ->
  brushSize st' = brushSize st -> isErasing st' = isErasing st ->
  img_onload sample fl box img initialMask st' =
  img_onload sample fl box img initialMask st.
Proof.
  intros Hi Hd Hi' Hd' (Sa & Sl & St) (Da & Dl & Dt) Hc Hdr Hl Hb He.
  unfold img_onload. destruct (geometry fl box img) as [cw ch].
  unfold with_imageCanvas, with_drawingCanvas.
  cbn [containerRef imageCanvasRef drawingCanvasRef isDrawing lastPos
       brushSize isErasing].
  rewrite Hi, Hd, Hi', Hd', Hc, Hdr, Hl, Hb, He. cbn [option_map].
  rewrite (set_size_ext cw ch ic' ic Sa Sl St).
  rewrite (set_size_ext cw ch dc' dc Da Dl Dt).
  reflexivity.
Qed.

(** X5. Resizing is idempotent: run again on its own result, with the same
    image, mask and container, [resizeCanvases] gives that result back. *)
Theorem resizeCanvases_idempotent (img : ImageData)
    (initialMask : option ImageData) (st : Editor) :
  resizeCanvases sample fl img initialMask
    (resizeCanvases sample fl img initialMask st) =
  resizeCanvases sample fl img initialMask st.
Proof.
  unfold resizeCanvases at 2.
  destruct (containerRef st) as [box|] eqn:Hb;
    [|unfold resizeCanvases; now rewrite Hb].
  destruct (imageCanvasRef st) as [ic|] eqn:Hi;
    [|unfold resizeCanvases; now rewrite Hb, Hi].
  destruct (drawingCanvasRef st) as [dc|] eqn:Hd;
    [|unfold resizeCanvases; now rewrite Hb, Hi, Hd].
  destruct (img_onload_frame box img initialMask st ic dc Hi Hd)
    as (Fc & Fd & Fl & Fb & Fe & ic' & dc' & Fi & Fdc & Si & Sd).
  unfold resizeCanvases. rewrite Fc, Hb, Fi, Fdc, Hi, Hd.
  apply (img_onload_ext box img initialMask st _ ic dc ic' dc'); assumption.
Qed.

End ResizeTwice.

(** ** A drag *)

Section Drag.

Variable rasterize :
  Z -> LineCap -> LineJoin -> Point -> Point -> Z -> Z -> nat -> Z.

Lemma drawLine_with_stroke (x1 y1 x2 y2 : Q) (d : bool) (p : option Point)
    (st : Editor) :
  drawLine rasterize x1 y1 x2 y2 (with_stroke d p st) =
  with_stroke d p (drawLine rasterize x1 y1 x2 y2 st).
Proof.
  unfold drawLine. cbn [drawingCanvasRef with_stroke].
  destruct (getContext2d (drawingCanvasRef st)); reflexivity.
Qed.

Lemma with_stroke_twice (d d' : bool) (p p' : option Point) (st : Editor) :
  with_stroke d p (with_stroke d' p' st) = with_stroke d p st.
Proof. reflexivity. Qed.

Lemma getMousePos_with_stroke (d : bool) (p : option Point) (st : Editor)
    (e : MouseEvent) :
  getMousePos (with_stroke d p st) e = getMousePos st e.
Proof. reflexivity. Qed.

(** Drawing moves nothing on the page: positions are read the same. *)
Lemma getMousePos_drawLine (x1 y1 x2 y2 : Q) (st : Editor) (e : MouseEvent) :
  getMousePos (drawLine rasterize x1 y1 x2 y2 st) e = getMousePos st e.
Proof.
  unfold drawLine, getContext2d, getMousePos.
  destruct (drawingCanvasRef st) as [c|] eqn:Hc; [|now rewrite Hc].
  destruct (contextAvailable c); [reflexivity | now rewrite Hc].
Qed.

Lemma drawSegments_with_stroke (d : bool) (o : option Point) (p : Point)
    (ps : list Point) (st : Editor) :
  drawSegments rasterize p ps (with_stroke d o st) =
  with_stroke d o (drawSegments rasterize p ps st).
Proof.
  revert p st; induction ps as [|q qs IH]; intros p st; cbn [drawSegments];
    [reflexivity|].
  now rewrite drawLine_with_stroke, IH.
Qed.

Lemma getMousePos_drawSegments (p : Point) (ps : list Point) (st : Editor)
    (e : MouseEvent) :
  getMousePos (drawSegments rasterize p ps st) e = getMousePos st e.
Proof.
  revert p st; induction ps as [|q qs IH]; intros p st; cbn [drawSegments];
    [reflexivity|].
  now rewrite IH, getMousePos_drawLine.
Qed.

Lemma draw_active (e : MouseEvent) (st : Editor) (p : Point) :
  isDrawing st = true -> lastPos st = Some p ->
  draw rasterize e st =
  with_stroke true (Some (getMousePos st e))
    (drawLine rasterize (x p) (y p) (x (getMousePos st e)) (y (getMousePos st e)) st).
Proof.
  intros Hd Hl. unfold draw. rewrite Hd, Hl. cbn [negb].
  f_equal.
  unfold drawLine. destruct (getContext2d (drawingCanvasRef st)); assumption.
Qed.

Lemma moves_paint_segments (es : list MouseEvent) (st : Editor) (p : Point) :
  isDrawing st = true -> lastPos st = Some p ->
  stopDrawing (fold_left (fun s e => draw rasterize e s) es st) =
  stopDrawing (drawSegments rasterize p (map (getMousePos st) es) st).
Proof.
  revert st p; induction es as [|e es IH]; intros st p Hd Hl;
    cbn [fold_left map drawSegments]; [reflexivity|].
  rewrite (draw_active e st p Hd Hl).
  set (q := getMousePos st e).
  rewrite (IH (with_stroke true (Some q)
                 (drawLine rasterize (x p) (y p) (x q) (y q) st)) q
              eq_refl eq_refl).
  rewrite drawSegments_with_stroke. unfold stopDrawing.
  rewrite with_stroke_twice. f_equal. f_equal.
  apply map_ext. intros e'.
  now rewrite getMousePos_with_stroke, getMousePos_drawLine.
Qed.

(** X6. A whole drag, mouse down at [e0], moves through [es], mouse up, leaves
    the editor as drawing the dot at the first position and then the
    segments between consecutive positions does: nothing else is painted,
    and the stroke state is closed. *)
Theorem drag_paints_polyline (e0 : MouseEvent) (es : list MouseEvent)
    (st : Editor) :
  stopDrawing
    (fold_left (fun s e => draw rasterize e s) es (startDrawing rasterize e0 st)) =
  stopDrawing
    (drawSegments rasterize (getMousePos st e0)
       (getMousePos st e0 :: map (getMousePos st) es) st).
Proof.
  unfold startDrawing. set (p0 := getMousePos st e0).
  rewrite drawLine_with_stroke.
  rewrite (moves_paint_segments es
             (with_stroke true (Some p0)
                (drawLine rasterize (x p0) (y p0) (x p0) (y p0) st))
             p0 eq_refl eq_refl).
  cbn [drawSegments]. rewrite drawSegments_with_stroke. unfold stopDrawing.
  rewrite with_stroke_twice. f_equal. f_equal.
  apply map_ext. intros e'.
  now rewrite getMousePos_with_stroke, getMousePos_drawLine.
Qed.

End Drag.

(** ** The canvas without pixels *)

(** X7. On an overlay canvas of width or height zero, [handleSave] throws
    [IndexSizeError] and [invertMask] throws [InvalidStateError]; both
    leave the editor as it was, and [onSave] is not called. *)
Theorem empty_canvas_throws (st : Editor) (c : Canvas) :
  drawingCanvasRef st = Some c -> contextAvailable c = true ->
  width c = 0 \/ height c = 0 ->
  handleSave st = (st, Threw (DOM IndexSizeError)) /\
  invertMask st = (st, Threw (DOM InvalidStateError)).
Proof.
  intros Hc Hav Hz.
  assert (E : (width c =? 0) || (height c =? 0) = true).
  { apply orb_true_iff. rewrite !Z.eqb_eq. exact Hz. }
  unfold handleSave, invertMask, getContext2d, getImageData, drawImage.
  rewrite Hc, Hav, E. split; reflexivity.
Qed.

Lemma empty_canvas_throws_witness :
  handleSave (editor_on (canvas_of 3 0 [])) =
    (editor_on (canvas_of 3 0 []), Threw (DOM IndexSizeError)) /\
  invertMask (editor_on (canvas_of 3 0 [])) =
    (editor_on (canvas_of 3 0 []), Threw (DOM InvalidStateError)).
Proof.
  apply (empty_canvas_throws (editor_on (canvas_of 3 0 [])) (canvas_of 3 0 []));
    [reflexivity | reflexivity | right; reflexivity].
Defined.

(** ** What seeding selects *)




(** ** The invariant, on a run *)

Lemma sample_bytes_wf (img : ImageData) (dw dh : Q) (w h : Z) :
  Forall wf_pixel (sample_bytes img dw dh w h).
Proof.
  unfold sample_bytes. apply Forall_forall. intros p Hp.
  apply in_map_iff in Hp as (m & <- & _). apply wf_pixel_iff.
  unfold premultiply, clamp_byte. cbn [red green blue alpha].
  set (a := Z.max 0 (Z.min 255 (alpha m))).
  assert (Ha : 0 <= a <= 255) by (unfold a; lia).
  repeat split; try lia;
    try (apply mul255_nonneg; lia);
    try (rewrite <- (mul255_255_l a) at 2; apply mul255_mono_l; lia).
Qed.

Lemma session_wf_witness :
  wf_editor
    (session cover_first sample_bytes fl_exact (mkContainer 4 2)
       [Resize (mkImageData 2 1 [white; black]) None;
        MouseDown (mkMouseEvent 0 0); MouseMove (mkMouseEvent 1 0); MouseUp;
        PickEraser true; MouseDown (mkMouseEvent 0 0); MouseUp;
        ClickInvert; ClickSave; ClickClear]).
Proof.
  apply (session_wf cover_first sample_bytes fl_exact sample_bytes_wf).
Defined.

(** * Properties of the studio and of the service *)

Section StudioProperties.

Import Ascii String Permutation.
Import JS GeminiService ImageStudio.

(** ** Strings and arrays *)

Lemma truthy_true (s : string) : truthy s = true <-> s <> EmptyString.
Proof. destruct s; cbn; split; congruence. Qed.

Lemma truthy_trimEnd (s : string) :
  truthy (trimEnd s) = existsb (fun c => negb (isWhiteSpace c)) (list_ascii_of_string s).
Proof.
  induction s as [|c r IH]; [reflexivity|].
  cbn [trimEnd list_ascii_of_string existsb]. rewrite <- IH.
  destruct (trimEnd r); [destruct (isWhiteSpace c)|]; cbn; try reflexivity.
  apply eq_sym, orb_true_r.
Qed.

Lemma existsb_trimStart (s : string) :
  existsb (fun c => negb (isWhiteSpace c)) (list_ascii_of_string (trimStart s)) =
  existsb (fun c => negb (isWhiteSpace c)) (list_ascii_of_string s).
Proof.
  induction s as [|c r IH]; [reflexivity|].
  cbn [trimStart]. destruct (isWhiteSpace c) eqn:Hc; [|reflexivity].
  cbn [list_ascii_of_string existsb]. rewrite Hc. exact IH.
Qed.

(** [s.trim()] is truthy exactly when [s] has a character that is not
    white space. *)
Lemma truthy_trim (s : string) :
  truthy (trim s) = negb (forallb isWhiteSpace (list_ascii_of_string s)).
Proof.
  unfold trim. rewrite truthy_trimEnd, existsb_trimStart.
  induction (list_ascii_of_string s) as [|c l IH]; [reflexivity|].
  cbn [existsb forallb]. rewrite IH, negb_andb. reflexivity.
Qed.

Lemma filteri_all {A : Type} (f : nat -> A -> bool) (l : list A) :
  forall k, (forall i a, (k <= i)%nat -> f i a = true) -> filteri f k l = l.
Proof.
  induction l as [|a l IH]; intros k H; [reflexivity|].
  cbn [filteri]. rewrite (H k a (Nat.le_refl k)). f_equal.
  apply IH. intros i b Hi. apply H. lia.
Qed.

Lemma filteri_remove {A : Type} (l : list A) :
  forall k n,
    filteri (fun i _ => negb (Nat.eqb i (k + n))) k l = (firstn n l ++ skipn (S n) l)%list.
Proof.
  induction l as [|a l IH]; intros k n.
  - destruct n; reflexivity.
  - cbn [filteri]. destruct n as [|n].
    + rewrite Nat.add_0_r, Nat.eqb_refl. cbn [negb firstn skipn app].
      apply filteri_all. intros i _ Hi.
      apply negb_true_iff, Nat.eqb_neq. lia.
    + replace (Nat.eqb k (k + S n)) with false
        by (apply eq_sym, Nat.eqb_neq; lia).
      cbn [negb firstn skipn app]. f_equal.
      replace (k + S n)%nat with (S k + n)%nat by lia. apply IH.
Qed.

Lemma nth_error_remove {A : Type} (l : list A) (n i : nat) :
  nth_error (firstn n l ++ skipn (S n) l) i =
  nth_error l (if (i <? n)%nat then i else S i).
Proof.
  destruct (Nat.ltb_spec i n) as [Hlt|Hge].
  - destruct (Nat.le_gt_cases (List.length l) i) as [Hl|Hl].
    + rewrite (proj2 (nth_error_None l i) Hl).
      apply nth_error_None. rewrite length_app, length_firstn, length_skipn. lia.
    + rewrite nth_error_app1 by (rewrite length_firstn; lia).
      apply nth_error_firstn_lt || (rewrite nth_error_firstn; destruct (Nat.ltb_spec i n); [reflexivity|lia]).
  - destruct (Nat.le_gt_cases (List.length l) n) as [Hl|Hl].
    + rewrite firstn_all2 by lia. rewrite skipn_all2 by lia. rewrite app_nil_r.
      rewrite (proj2 (nth_error_None l i)) by lia.
      apply eq_sym, nth_error_None. lia.
    + rewrite nth_error_app2 by (rewrite length_firstn; lia).
      rewrite length_firstn, nth_error_skipn.
      f_equal. lia.
Qed.

(** ** The list of reference images *)

(** X10. Removing the reference image at [index] leaves, at each position,
    the entry that was there (before [index]) or the next one (from [index]
    on); the list gets shorter by one exactly when [index] was a position
    of it, and nothing else of the state changes. *)
Theorem handleRemoveReferenceImage_shifts (index : nat) (st : Studio) :
  let st' := handleRemoveReferenceImage index st in
  (forall i, nth_error (referenceImages st') i =
             nth_error (referenceImages st) (if (i <? index)%nat then i else S i)) /\
  List.length (referenceImages st') =
    (List.length (referenceImages st)
     - (if (index <? List.length (referenceImages st))%nat then 1 else 0))%nat /\
  st' = setReferenceImages (referenceImages st') st.
Proof.
  cbn zeta. unfold handleRemoveReferenceImage.
  cbn [referenceImages setReferenceImages].
  pose proof (filteri_remove (referenceImages st) 0 index) as H.
  cbn [Nat.add] in H. rewrite H. clear H.
  split; [|split].
  - intro i. apply nth_error_remove.
  - rewrite length_app, length_firstn, length_skipn.
    destruct (Nat.ltb_spec index (List.length (referenceImages st))); lia.
  - reflexivity.
Qed.

Lemma sort_lists {A : Type} (l : list A) (i j : nat) (x : A) :
  nth_error l i = Some x ->
  let rest := (firstn i l ++ skipn (S i) l)%list in
  let new := splice_insert j x rest in
  let k := Nat.min j (List.length l - 1) in
  Permutation l new /\
  nth_error new k = Some x /\
  (firstn k new ++ skipn (S k) new)%list = rest /\
  List.length new = List.length l.
Proof.
  intros Hx rest new k.
  assert (Hi : (i < List.length l)%nat) by (apply nth_error_Some; congruence).
  assert (Hl : l = (firstn i l ++ x :: skipn (S i) l)%list).
  { rewrite <- (firstn_skipn i l) at 1. f_equal.
    clear -Hx. revert i Hx. induction l as [|a l IH]; intros [|i] Hx; try discriminate.
    - cbn in *. congruence.
    - cbn [nth_error] in Hx. cbn [skipn]. rewrite (IH i Hx) at 1.
      destruct l; [destruct i; discriminate|reflexivity]. }
  assert (Hrest : List.length rest = (List.length l - 1)%nat).
  { unfold rest. rewrite length_app, length_firstn, length_skipn. lia. }
  assert (Hk : List.length (firstn j rest) = k).
  { rewrite length_firstn, Hrest. reflexivity. }
  unfold new, splice_insert. split; [|split; [|split]].
  - rewrite Hl at 1. apply Permutation_trans with (x :: rest).
    + apply Permutation_sym, Permutation_middle.
    + rewrite <- (firstn_skipn j rest) at 1. apply Permutation_middle.
  - rewrite <- Hk. rewrite nth_error_app2 by lia.
    rewrite Nat.sub_diag. reflexivity.
  - rewrite <- Hk.
    rewrite firstn_app, firstn_all, Nat.sub_diag. cbn [firstn]. rewrite app_nil_r.
    rewrite skipn_app, skipn_all2 by lia.
    replace (S (List.length (firstn j rest)) - List.length (firstn j rest))%nat
      with 1%nat by lia.
    cbn [skipn app]. apply firstn_skipn.
  - rewrite length_app. cbn [List.length]. rewrite length_firstn, length_skipn, Hrest. lia.
Qed.

(** X11. Ending a drag that started on thumbnail [i] and last entered
    thumbnail [j] moves entry [i] to position [min j (length - 1)]: the new
    list is a permutation of the old one, of the same length; the dragged
    entry sits at that position; the other entries keep their order; and
    both drag refs are cleared. *)
Theorem handleSortReferenceImages_moves (i j : nat) (st : Studio) :
  dragImage st = Some i ->
  dragOverImage st = Some j ->
  (i < List.length (referenceImages st))%nat ->
  let st' := handleSortReferenceImages st in
  let k := Nat.min j (List.length (referenceImages st) - 1) in
  Permutation (referenceImages st) (referenceImages st') /\
  List.length (referenceImages st') = List.length (referenceImages st) /\
  nth_error (referenceImages st') k = nth_error (referenceImages st) i /\
  (firstn k (referenceImages st') ++ skipn (S k) (referenceImages st'))%list =
    (firstn i (referenceImages st) ++ skipn (S i) (referenceImages st))%list /\
  dragImage st' = None /\ dragOverImage st' = None.
Proof.
  intros Hi Hj Hlen st' k.
  destruct (nth_error (referenceImages st) i) as [x|] eqn:Hx;
    [|apply nth_error_None in Hx; lia].
  assert (Hfirst : firstn 1 (skipn i (referenceImages st)) = [x]).
  { clear -Hx. revert i Hx.
    induction (referenceImages st) as [|a l IH]; intros [|i] Hx; try discriminate.
    - cbn in *. congruence.
    - cbn [skipn]. apply IH. exact Hx. }
  assert (Hst' : referenceImages st' =
                 splice_insert j x
                   (firstn i (referenceImages st) ++ skipn (S i) (referenceImages st))%list).
  { unfold st', handleSortReferenceImages. rewrite Hi, Hj.
    unfold splice_delete1. rewrite Hfirst. reflexivity. }
  destruct (sort_lists (referenceImages st) i j x Hx) as (Hp & Hn & Hr & Hl).
  rewrite Hst'. repeat split; try assumption.
  - unfold st', handleSortReferenceImages. rewrite Hi, Hj.
    unfold splice_delete1. reflexivity.
  - unfold st', handleSortReferenceImages. rewrite Hi, Hj.
    unfold splice_delete1. reflexivity.
Qed.

Lemma handleSortReferenceImages_moves_witness :
  let img := fun n => Some (mkImageFile (mkFile n "image/png") "data:image/png;base64,AA==") in
  let st := mkStudio false None None None [img "a"; img "b"; img "c"]%string
              EmptyString false false (Some 0%nat) (Some 2%nat) in
  referenceImages (handleSortReferenceImages st) = [img "b"; img "c"; img "a"]%string /\
  Permutation (referenceImages st) (referenceImages (handleSortReferenceImages st)).
Proof.
  cbn zeta. split; [reflexivity|].
  eapply (handleSortReferenceImages_moves 0 2); [reflexivity|reflexivity|cbn; lia].
Defined.

Lemma first_invalid_None (t : Translations) (files : list Item) :
  first_invalid t files = None ->
  exists fs, files = map AFile fs /\
             Forall (fun f => startsWith (type f) "image/" = true) fs.
Proof.
  induction files as [|item rest IH]; intro H.
  - exists []. split; [reflexivity|constructor].
  - cbn [first_invalid] in H.
    destruct (invalid_item t item) eqn:Hi; [discriminate|].
    destruct (IH H) as (fs & -> & Hall).
    destruct item as [f|]; [|discriminate].
    exists (f :: fs). split; [reflexivity|].
    constructor; [|exact Hall].
    cbn [invalid_item] in Hi.
    destruct (startsWith (type f) "image/"); [reflexivity|discriminate].
Qed.

Lemma read_all_Some (read : File -> option string) (fs : list File) (imgs : list ImageFile) :
  read_all read (map AFile fs) = Some imgs ->
  map file imgs = fs /\ Forall (fun img => read (file img) = Some (base64 img)) imgs.
Proof.
  revert imgs. induction fs as [|f fs IH]; intros imgs H.
  - cbn in H. injection H as <-. split; [reflexivity|constructor].
  - cbn [map read_all] in H.
    destruct (read f) as [b|] eqn:Hb; [|discriminate].
    destruct (read_all read (map AFile fs)) as [rest|] eqn:Hr; [|discriminate].
    injection H as <-. destruct (IH rest eq_refl) as (Hm & Hall).
    split; [cbn; f_equal; exact Hm|].
    constructor; [exact Hb|exact Hall].
Qed.

(** X12. An upload of reference images is all or nothing. Whatever the
    state is when the reads settle, either every item was an image file
    that could be read, and the images are appended in the order of the
    items, each with the data URL read from its file, or the list is left as
    it is and an error message is set, at once (over the cap) or when the
    reads settle. The list is not touched before the reads settle. *)
Theorem processAndSetReferenceFiles_all_or_nothing
    (t : Translations) (read : File -> option string) (files : list Item)
    (st later : Studio) :
  let h := processAndSetReferenceFiles t read files st in
  referenceImages (fst h) = referenceImages st /\
  ((exists imgs,
       files = map AFile (map file imgs) /\
       Forall (fun img => startsWith (type (file img)) "image/" = true /\
                          read (file img) = Some (base64 img)) imgs /\
       (List.length (referenceImages st) + List.length imgs <= MAX_REFERENCE_IMAGES)%nat /\
       error (fst h) = None /\
       snd h later = setReferenceImages (referenceImages later ++ map Some imgs)%list later)
   \/
   (referenceImages (snd h later) = referenceImages later /\
    ((exists message, error (fst h) = Some message /\ snd h later = later) \/
     (exists message, snd h later = setError (Some message) later)))).
Proof.
  cbn zeta. unfold processAndSetReferenceFiles.
  destruct (Nat.ltb_spec MAX_REFERENCE_IMAGES
              (List.length (referenceImages st) + List.length files)) as [Hover|Hcap].
  - split; [reflexivity|]. right. split; [reflexivity|]. left.
    eexists. split; reflexivity.
  - cbn [fst snd]. split; [reflexivity|].
    unfold new_images.
    destruct (first_invalid t files) as [message|] eqn:Hinv.
    + right. split; [reflexivity|]. right. eexists. reflexivity.
    + destruct (first_invalid_None t files Hinv) as (fs & -> & Htypes).
      destruct (read_all read (map AFile fs)) as [imgs|] eqn:Hread.
      * left. exists imgs.
        destruct (read_all_Some read fs imgs Hread) as (Hm & Hall).
        rewrite Hm. split; [reflexivity|]. split; [|split; [|split; reflexivity]].
        -- subst fs. clear -Htypes Hall.
           induction imgs as [|img imgs IH]; constructor.
           ++ split; [inversion Htypes; assumption|inversion Hall; assumption].
           ++ apply IH; [inversion Htypes; assumption|inversion Hall; assumption].
        -- rewrite length_map in Hcap.
           rewrite <- Hm, length_map in Hcap. exact Hcap.
      * right. split; [reflexivity|]. right. eexists. reflexivity.
Qed.

(** X13. An upload that runs to its end before anything else happens never
    takes the list of reference images past the cap of three: the list has
    at most three entries afterwards, or no more than it had. *)
Theorem processAndSetReferenceFiles_cap
    (t : Translations) (read : File -> option string) (files : list Item) (st : Studio) :
  (List.length (referenceImages (run (processAndSetReferenceFiles t read files st)))
   <= Nat.max (List.length (referenceImages st)) MAX_REFERENCE_IMAGES)%nat.
Proof.
  unfold run, processAndSetReferenceFiles.
  destruct (Nat.ltb_spec MAX_REFERENCE_IMAGES
              (List.length (referenceImages st) + List.length files)) as [Hover|Hcap].
  - cbn. apply Nat.le_max_l.
  - cbn [fst snd]. unfold new_images.
    destruct (first_invalid t files) as [message|] eqn:Hinv;
      [cbn; apply Nat.le_max_l|].
    destruct (first_invalid_None t files Hinv) as (fs & -> & _).
    destruct (read_all read (map AFile fs)) as [imgs|] eqn:Hread;
      [|cbn; apply Nat.le_max_l].
    destruct (read_all_Some read fs imgs Hread) as (Hm & _).
    cbn [referenceImages setReferenceImages setError].
    rewrite length_app, length_map. rewrite length_map in Hcap.
    rewrite <- Hm, length_map in Hcap.
    etransitivity; [exact Hcap|apply Nat.le_max_r].
Qed.

(** ** The service *)

Lemma fold_push (refs : list InlineImage) (acc : list Part) :
  fold_left (fun ps ref => (ps ++ [image_part ref])%list) refs acc =
  (acc ++ map image_part refs)%list.
Proof.
  revert acc. induction refs as [|ref refs IH]; intro acc.
  - cbn. apply eq_sym, app_nil_r.
  - cbn [fold_left map]. rewrite IH, <- app_assoc. reflexivity.
Qed.

Lemma request_parts_closed (prompt : string) (baseImage : option InlineImage)
    (referenceImages : list InlineImage) (maskImage : option InlineImage) :
  request_parts prompt baseImage referenceImages maskImage =
  ((match baseImage with
    | Some b =>
        image_part b ::
        match maskImage with Some m => [image_part m] | None => [] end
    | None => []
    end) ++ map image_part referenceImages ++ [text_part prompt])%list.
Proof.
  unfold request_parts. rewrite fold_push.
  destruct baseImage, maskImage; cbn [app]; rewrite <- ?app_assoc; reflexivity.
Qed.

(** X14. The parts [generateOrEditImage] sends: the base image if there is
    one, the mask right after it if there are both, the reference images in
    their order, and the prompt as the one text part, last. Without a base
    image the mask is not sent. *)
Theorem request_parts_order (prompt : string) (baseImage : option InlineImage)
    (referenceImages : list InlineImage) (maskImage : option InlineImage) :
  let ps := request_parts prompt baseImage referenceImages maskImage in
  ps = ((match baseImage with
         | Some b =>
             image_part b ::
             match maskImage with Some m => [image_part m] | None => [] end
         | None => []
         end) ++ map image_part referenceImages ++ [text_part prompt])%list /\
  request_parts prompt None referenceImages maskImage =
    request_parts prompt None referenceImages None /\
  filter has_text ps = (if truthy prompt then [text_part prompt] else []) /\
  last ps (text_part prompt) = text_part prompt.
Proof.
  cbn zeta. rewrite !request_parts_closed. split; [reflexivity|].
  split; [reflexivity|]. split.
  - rewrite !filter_app.
    assert (Himg : forall l, filter has_text (map image_part l) = []).
    { induction l as [|x l IH]; [reflexivity|exact IH]. }
    rewrite Himg.
    replace (filter has_text
               match baseImage with
               | Some b =>
                   image_part b ::
                   match maskImage with Some m => [image_part m] | None => [] end
               | None => []
               end) with (@nil Part)
      by (destruct baseImage, maskImage; reflexivity).
    cbn [app filter]. unfold has_text, text_part. cbn [text truthy_opt].
    reflexivity.
  - rewrite app_assoc. apply last_last.
Qed.

Lemma find_split {A : Type} (f : A -> bool) (l : list A) (p : A) :
  List.find f l = Some p <->
  exists before after,
    l = (before ++ p :: after)%list /\ f p = true /\
    Forall (fun q => f q = false) before.
Proof.
  split.
  - revert p. induction l as [|a l IH]; intros p H; [discriminate|].
    cbn [List.find] in H. destruct (f a) eqn:Ha.
    + injection H as <-. exists [], l. repeat split; [exact Ha|constructor].
    + destruct (IH p H) as (before & after & -> & Hp & Hb).
      exists (a :: before), after. repeat split; [exact Hp|].
      constructor; assumption.
  - intros (before & after & -> & Hp & Hb).
    induction Hb as [|q before Hq Hb IH]; cbn [app List.find].
    + rewrite Hp. reflexivity.
    + rewrite Hq. exact IH.
Qed.

Lemma has_image_data_false (p : Part) : has_image_data p = false <-> image_data p = None.
Proof. unfold has_image_data. destruct (image_data p); split; congruence. Qed.

Lemma image_data_nonempty (p : Part) (d : string) : image_data p = Some d -> d <> EmptyString.
Proof.
  unfold image_data. destruct (inlineData p) as [b|]; [|discriminate].
  destruct (data b) as [x|]; [|discriminate].
  destruct x; cbn; [discriminate|]. intro H. injection H as <-. discriminate.
Qed.

Lemma process_response_Return (response : GenerateContentResponse) (d : string) :
  process_response response = Return d <->
  truthy_opt (response_blockReason response) = false /\
  exists candidate others ct before p after,
    candidates response = Some (candidate :: others) /\
    content candidate = Some ct /\
    parts ct = Some (before ++ p :: after)%list /\
    Forall (fun q => image_data q = None) before /\
    image_data p = Some d.
Proof.
  unfold process_response. split.
  - destruct (truthy_opt (response_blockReason response)); [discriminate|].
    intro H. split; [reflexivity|].
    destruct (candidates response) as [[|candidate others]|] eqn:Hc; try discriminate.
    unfold candidate_parts in H.
    destruct (content candidate) as [ct|] eqn:Hct; [|discriminate].
    destruct (parts ct) as [[|p0 ps0]|] eqn:Hps; try discriminate.
    unfold find in H.
    destruct (List.find has_image_data (p0 :: ps0)) as [p|] eqn:Hf.
    + cbn [option_map] in H.
      destruct (image_data p) as [d'|] eqn:Hd.
      * injection H as <-.
        apply find_split in Hf. destruct Hf as (before & after & Heq & _ & Hb).
        exists candidate, others, ct, before, p, after.
        repeat split; try assumption; [rewrite Hps, Heq; reflexivity|].
        eapply Forall_impl; [|exact Hb]. intros q. apply has_image_data_false.
      * destruct (List.find has_text (p0 :: ps0)); discriminate.
    + cbn [option_map] in H.
      destruct (List.find has_text (p0 :: ps0)); discriminate.
  - intros (Hblock & candidate & others & ct & before & p & after
            & Hc & Hct & Hps & Hb & Hd).
    rewrite Hblock, Hc. unfold candidate_parts. rewrite Hct, Hps.
    assert (Hf : List.find has_image_data (before ++ p :: after) = Some p).
    { apply find_split. exists before, after. repeat split.
      - unfold has_image_data. rewrite Hd. reflexivity.
      - eapply Forall_impl; [|exact Hb]. intros q. apply has_image_data_false. }
    revert Hf. destruct (before ++ p :: after)%list as [|p0 ps0] eqn:Heq;
      [destruct before; discriminate|].
    intro Hf. unfold find. rewrite Hf. cbn [option_map]. rewrite Hd. reflexivity.
Qed.

(** X15. [generateOrEditImage] resolves, with [d], exactly when the API
    call returns a response without a block reason whose first candidate
    has parts, and [d] is the inline data, not empty, of the first of these
    parts that has any; text parts, finish reason and safety ratings play
    no role then. A resolved value is never the empty string. *)
Theorem generateOrEditImage_resolves_iff
    (generateContent : list Part -> ApiOutcome) (prompt : string)
    (baseImage : option InlineImage) (referenceImages : list InlineImage)
    (maskImage : option InlineImage) (d : string) :
  generateOrEditImage generateContent prompt baseImage referenceImages maskImage
    = Resolved d <->
  d <> EmptyString /\
  exists response candidate others ct before p after,
    generateContent (request_parts prompt baseImage referenceImages maskImage)
      = ApiReturns response /\
    truthy_opt (response_blockReason response) = false /\
    candidates response = Some (candidate :: others) /\
    content candidate = Some ct /\
    parts ct = Some (before ++ p :: after)%list /\
    Forall (fun q => image_data q = None) before /\
    image_data p = Some d.
Proof.
  unfold generateOrEditImage, await_api. split.
  - destruct (generateContent _) as [response| |] eqn:Hapi; try discriminate.
    destruct (process_response response) as [d'| |] eqn:Hr; try discriminate.
    intro H. injection H as <-.
    apply process_response_Return in Hr.
    destruct Hr as (Hblock & candidate & others & ct & before & p & after
                    & Hc & Hct & Hps & Hb & Hd).
    split; [exact (image_data_nonempty p d' Hd)|].
    exists response, candidate, others, ct, before, p, after. repeat split; assumption.
  - intros (_ & response & candidate & others & ct & before & p & after
            & Hapi & Hblock & Hc & Hct & Hps & Hb & Hd).
    rewrite Hapi.
    assert (Hr : process_response response = Return d).
    { apply process_response_Return. split; [exact Hblock|].
      exists candidate, others, ct, before, p, after. repeat split; assumption. }
    rewrite Hr. reflexivity.
Qed.

(** X16. [enhancePrompt] resolves, with [e], exactly when the prompt has a
    character that is not white space and the API call returns a response
    whose text is [e], not empty. *)
Theorem enhancePrompt_resolves_iff
    (generateContent : string -> ApiOutcome) (prompt e : string) :
  enhancePrompt generateContent prompt = Resolved e <->
  forallb isWhiteSpace (list_ascii_of_string prompt) = false /\
  e <> EmptyString /\
  exists response,
    generateContent prompt = ApiReturns response /\ response_text response = Some e.
Proof.
  unfold enhancePrompt. rewrite truthy_trim, negb_involutive. split.
  - destruct (forallb isWhiteSpace (list_ascii_of_string prompt)); [discriminate|].
    unfold await_api.
    destruct (generateContent prompt) as [response| |]; try discriminate.
    destruct (response_text response) as [[|c x]|] eqn:Ht; cbn; try discriminate.
    intro H. injection H as <-.
    split; [reflexivity|]. split; [discriminate|].
    exists response. split; [reflexivity|exact Ht].
  - intros (Hw & Hne & response & Hapi & Ht).
    rewrite Hw, Hapi. unfold await_api. rewrite Ht.
    destruct e; [congruence|]. reflexivity.
Qed.

(** ** Submitting and enhancing *)

Lemma generateOrEditImage_ext
    (api api' : list Part -> ApiOutcome) (prompt : string)
    (baseImage : option InlineImage) (referenceImages : list InlineImage)
    (maskImage : option InlineImage) :
  api (request_parts prompt baseImage referenceImages maskImage) =
  api' (request_parts prompt baseImage referenceImages maskImage) ->
  generateOrEditImage api prompt baseImage referenceImages maskImage =
  generateOrEditImage api' prompt baseImage referenceImages maskImage.
Proof. unfold generateOrEditImage. intros ->. reflexivity. Qed.

(** X17. What [handleSubmit] asks of the API: nothing when the prompt is
    all white space or a reference entry is undefined; otherwise the answer
    to one request, made of the original image if there is one, the
    reference images in their order and the prompt, with no mask. Two APIs
    that answer this request alike give the same submission. *)
Theorem handleSubmit_request
    (t : Translations) (typeErrorMessage : string)
    (api api' : list Part -> ApiOutcome) (st : Studio) :
  (forall ds,
      forallb isWhiteSpace (list_ascii_of_string (prompt st)) = false ->
      refImagesData (referenceImages st) = Some ds ->
      let request :=
        ((match originalImage st with
          | Some o => [image_part (inline_image o)]
          | None => []
          end) ++ map image_part ds ++ [text_part (prompt st)])%list in
      api request = api' request) ->
  handleSubmit t typeErrorMessage api st = handleSubmit t typeErrorMessage api' st.
Proof.
  intro H. unfold handleSubmit. rewrite truthy_trim, negb_involutive.
  destruct (forallb isWhiteSpace (list_ascii_of_string (prompt st))) eqn:Hw;
    [reflexivity|].
  destruct (refImagesData (referenceImages st)) as [ds|] eqn:Hds; [|reflexivity].
  specialize (H ds eq_refl eq_refl). cbn zeta in H.
  rewrite (generateOrEditImage_ext api api' (prompt st)
             (option_map inline_image (originalImage st)) ds None).
  - reflexivity.
  - rewrite request_parts_closed.
    destruct (originalImage st); exact H.
Qed.

Lemma handleSubmit_request_witness :
  let t := mkTranslations "invalid" "unreadable" (fun _ => "too many"%string) "empty"
             "unexpected" "failed" in
  let st := setPrompt "a cat" initial in
  let api := fun ps : list Part =>
               if (List.length ps =? 1)%nat then ApiThrowsOther
               else ApiThrowsError "never asked" in
  let api' := fun _ : list Part => ApiThrowsOther in
  handleSubmit t "TypeError" api st = handleSubmit t "TypeError" api' st.
Proof.
  cbn zeta. apply handleSubmit_request.
  intros ds _ Hds. cbn in Hds. injection Hds as <-. reflexivity.
Defined.




(** X19. Enhancing never blanks the prompt: started on a prompt that is
    not empty and run to its end, [handleEnhancePrompt] leaves the studio
    not enhancing, with either the enhanced text, not empty, as the prompt
    and no error shown, or the prompt as it was and an error shown. A
    prompt of white space only is never sent: the error then is that of the
    service's own check. *)
Theorem handleEnhancePrompt_settles
    (api : string -> ApiOutcome) (st : Studio) :
  prompt st <> EmptyString ->
  let st' := run (handleEnhancePrompt api st) in
  isEnhancing st' = false /\
  prompt st' <> EmptyString /\
  ((error st' = None /\
    exists response, api (prompt st) = ApiReturns response /\
                     response_text response = Some (prompt st')) \/
   (prompt st' = prompt st /\ exists message, error st' = Some message)) /\
  (forallb isWhiteSpace (list_ascii_of_string (prompt st)) = true ->
   st' = setIsEnhancing false (setError (Some "Prompt cannot be empty."%string)
           (setError None (setIsEnhancing true st)))).
Proof.
  intro Hne. cbn zeta. unfold run, handleEnhancePrompt.
  destruct (prompt st) as [|c r] eqn:Hp; [congruence|].
  cbn [truthy negb fst snd].
  destruct (enhancePrompt api (String c r)) as [e|message] eqn:He.
  - pose proof He as He'.
    unfold enhancePrompt in He'. rewrite truthy_trim, negb_involutive in He'.
    destruct (forallb isWhiteSpace (list_ascii_of_string (String c r))) eqn:Hw;
      [discriminate|].
    unfold await_api in He'.
    destruct (api (String c r)) as [response| |] eqn:Hapi; try discriminate.
    destruct (response_text response) as [[|c' x]|] eqn:Ht; cbn in He'; try discriminate.
    injection He' as <-.
    cbn [isEnhancing prompt error setIsEnhancing setPrompt setError].
    repeat split; try discriminate.
    left. split; [reflexivity|]. exists response. split; [reflexivity|exact Ht].
  - cbn [isEnhancing prompt error setIsEnhancing setPrompt setError].
    rewrite Hp. repeat split; try discriminate.
    + right. split; [reflexivity|]. eexists. reflexivity.
    + intro Hw. unfold enhancePrompt in He.
      rewrite truthy_trim, negb_involutive, Hw in He.
      injection He as <-. reflexivity.
Qed.

Lemma handleEnhancePrompt_settles_witness :
  let st := run (handleEnhancePrompt
                   (fun _ => ApiReturns (mkResponse None None (Some "a cat, at dusk"%string)))
                   (setPrompt "a cat" initial)) in
  prompt st = "a cat, at dusk"%string /\ isEnhancing st = false.
Proof.
  cbn zeta. split; [reflexivity|].
  eapply (handleEnhancePrompt_settles _ (setPrompt "a cat" initial)).
  discriminate.
Defined.

(** ** Data URLs *)

Local Open Scope string_scope.

Lemma split_lacks (sep : ascii) (s : string) :
  lacks sep s = true -> split sep s = [s].
Proof.
  unfold lacks. induction s as [|c r IH]; [reflexivity|].
  cbn [list_ascii_of_string forallb split]. intro H.
  apply andb_true_iff in H. destruct H as (Hc & Hr).
  apply negb_true_iff in Hc. rewrite Hc, (IH Hr). reflexivity.
Qed.

Lemma split_cons (sep : ascii) (h p : string) :
  lacks sep h = true ->
  split sep (h ++ String sep p) = h :: split sep p.
Proof.
  unfold lacks. induction h as [|c r IH].
  - intros _. cbn [String.append split]. rewrite Ascii.eqb_refl. reflexivity.
  - cbn [list_ascii_of_string forallb String.append split]. intro H.
    apply andb_true_iff in H. destruct H as (Hc & Hr).
    apply negb_true_iff in Hc. rewrite Hc, (IH Hr). reflexivity.
Qed.

(** X20. The image data [handleSubmit] sends for an image whose data URL
    is a header, a comma and a payload, both without a comma, is that
    payload, with the file's type. *)
Theorem inline_image_payload (image : ImageFile) (header payload : string) :
  lacks "," header = true ->
  lacks "," payload = true ->
  base64 image = header ++ String "," payload ->
  inline_image image = mkInlineImage (Some payload) (type (file image)).
Proof.
  intros Hh Hp Hb. unfold inline_image.
  rewrite Hb, (split_cons _ _ _ Hh), (split_lacks _ _ Hp). reflexivity.
Qed.

Lemma inline_image_payload_witness :
  inline_image (mkImageFile (mkFile "cat.png" "image/png") "data:image/png;base64,iVBORw0KGgo=")
  = mkInlineImage (Some "iVBORw0KGgo="%string) "image/png".
Proof.
  apply (inline_image_payload
           (mkImageFile (mkFile "cat.png" "image/png") "data:image/png;base64,iVBORw0KGgo=")
           "data:image/png;base64" "iVBORw0KGgo="); reflexivity.
Defined.

Lemma array_set_length (a : list Z) (i : nat) (v : Z) :
  List.length (array_set a i v) = List.length a.
Proof.
  revert i. induction a as [|x a IH]; intros [|i]; cbn; try reflexivity.
  f_equal. apply IH.
Qed.

Lemma nth_error_array_set (a : list Z) (i j : nat) (v : Z) :
  (i < List.length a)%nat ->
  nth_error (array_set a i v) j = if (j =? i)%nat then Some v else nth_error a j.
Proof.
  revert i j. induction a as [|x a IH]; intros i j Hi; [cbn in Hi; lia|].
  destruct i as [|i], j as [|j]; cbn [array_set nth_error Nat.eqb]; try reflexivity.
  apply IH. cbn in Hi. lia.
Qed.

(** The loop's invariant: the positions from [n] on hold what the loop
    wrote there, the ones below [n] what was there before. *)
Lemma fill_bytes_spec (bstr : string) (n : nat) :
  forall u8arr,
    (n <= List.length u8arr)%nat ->
    List.length (fill_bytes bstr n u8arr) = List.length u8arr /\
    forall j,
      nth_error (fill_bytes bstr n u8arr) j =
      if (j <? n)%nat then Some (charCodeAt bstr j) else nth_error u8arr j.
Proof.
  induction n as [|n IH]; intros u8arr Hn.
  - split; [reflexivity|]. intro j. reflexivity.
  - cbn [fill_bytes].
    destruct (IH (array_set u8arr n (charCodeAt bstr n))) as (Hl & Hj).
    { rewrite array_set_length. lia. }
    rewrite array_set_length in Hl. split; [exact Hl|].
    intro j. rewrite Hj, nth_error_array_set by lia.
    destruct (Nat.ltb_spec j n), (Nat.ltb_spec j (S n)), (Nat.eqb_spec j n);
      try lia; try reflexivity.
    subst j. reflexivity.
Qed.

Lemma charCodeAt_nth (bstr : string) (j : nat) :
  (j < String.length bstr)%nat ->
  nth_error (map (fun c => Z.of_nat (nat_of_ascii c)) (list_ascii_of_string bstr)) j =
  Some (charCodeAt bstr j).
Proof.
  revert j. induction bstr as [|c r IH]; intros j Hj; [cbn in Hj; lia|].
  destruct j as [|j].
  - cbn [list_ascii_of_string map nth_error]. unfold charCodeAt. cbn [String.get].
    rewrite Z.mod_small; [reflexivity|].
    pose proof (nat_ascii_bounded c). lia.
  - cbn [list_ascii_of_string map nth_error]. rewrite IH by (cbn in Hj; lia).
    reflexivity.
Qed.

Lemma fill_bytes_all (bstr : string) :
  fill_bytes bstr (String.length bstr) (repeat 0 (String.length bstr)) =
  map (fun c => Z.of_nat (nat_of_ascii c)) (list_ascii_of_string bstr).
Proof.
  destruct (fill_bytes_spec bstr (String.length bstr) (repeat 0 (String.length bstr)))
    as (Hl & Hj); [rewrite repeat_length; lia|].
  rewrite repeat_length in Hl.
  apply nth_error_ext. intro j. rewrite Hj.
  destruct (Nat.ltb_spec j (String.length bstr)) as [Hlt|Hge].
  - apply eq_sym, charCodeAt_nth. exact Hlt.
  - rewrite (proj2 (nth_error_None _ _)) by (rewrite repeat_length; lia).
    apply eq_sym, nth_error_None.
    rewrite length_map.
    assert (Hlen : forall s, List.length (list_ascii_of_string s) = String.length s).
    { induction s; cbn; congruence. }
    rewrite Hlen. exact Hge.
Qed.

Lemma lazy_until_semicolon_app (mime rest : string) :
  lacks ";" mime = true ->
  forallb (fun c => negb (isLineTerminator c)) (list_ascii_of_string mime) = true ->
  lazy_until_semicolon (mime ++ String ";" rest) = Some mime.
Proof.
  unfold lacks. induction mime as [|c r IH].
  - intros _ _. reflexivity.
  - cbn [list_ascii_of_string forallb String.append lazy_until_semicolon].
    intros H1 H2.
    apply andb_true_iff in H1. destruct H1 as (Hc1 & Hr1).
    apply andb_true_iff in H2. destruct H2 as (Hc2 & Hr2).
    apply negb_true_iff in Hc1, Hc2. rewrite Hc1, Hc2, (IH Hr1 Hr2). reflexivity.
Qed.

Lemma mimeMatch_lacks_semicolon (s : string) :
  lacks ";" s = true -> mimeMatch s = None.
Proof.
  unfold lacks.
  assert (Hlazy : forall r, forallb (fun x => negb (Ascii.eqb x ";"))
                             (list_ascii_of_string r) = true ->
                            lazy_until_semicolon r = None).
  { induction r as [|c r IH]; [reflexivity|].
    cbn [list_ascii_of_string forallb lazy_until_semicolon]. intro H.
    apply andb_true_iff in H. destruct H as (Hc & Hr).
    apply negb_true_iff in Hc. rewrite Hc, (IH Hr).
    destruct (isLineTerminator c); reflexivity. }
  induction s as [|c r IH]; [reflexivity|].
  cbn [list_ascii_of_string forallb mimeMatch]. intro H.
  apply andb_true_iff in H. destruct H as (Hc & Hr).
  rewrite (Hlazy r Hr), (IH Hr). destruct (Ascii.eqb c ":"); reflexivity.
Qed.

(** X21. [dataURLtoFile] on a data URL [data:<mime>;base64,<payload>],
    where the type has no comma, semicolon or line break and the payload no
    comma and [atob] decodes it: the file has the name given, the type of
    the URL as the [File] constructor normalises it and, byte for byte and
    in order, the characters [atob] gives.
 *)
Theorem dataURLtoFile_decodes (atob : string -> option string)
    (mime payload filename bstr : string) :
  lacks "," mime = true ->
  lacks ";" mime = true ->
  forallb (fun c => negb (isLineTerminator c)) (list_ascii_of_string mime) = true ->
  lacks "," payload = true ->
  atob payload = Some bstr ->
  dataURLtoFile atob ("data:" ++ mime ++ String ";" ("base64" ++ String "," payload))
    filename =
  inl (mkByteFile (map (fun c => Z.of_nat (nat_of_ascii c)) (list_ascii_of_string bstr))
         filename (File_type mime)).
Proof.
  intros Hc Hs Hl Hp Hatob. unfold dataURLtoFile.
  assert (Hsplit :
    split "," ("data:" ++ mime ++ String ";" ("base64" ++ String "," payload)) =
    [("data:" ++ mime ++ String ";" "base64")%string; payload]).
  { replace ("data:" ++ mime ++ String ";" ("base64" ++ String "," payload))%string
      with (("data:" ++ mime ++ String ";" "base64") ++ String "," payload)%string.
    - rewrite split_cons, (split_lacks _ _ Hp); [reflexivity|].
      unfold lacks in *. cbn [String.append list_ascii_of_string forallb].
      cbn [Ascii.eqb Bool.eqb negb andb].
      clear -Hc. induction mime as [|c r IH]; [reflexivity|].
      cbn [String.append list_ascii_of_string forallb] in *.
      apply andb_true_iff in Hc. destruct Hc as (H1 & H2).
      rewrite H1, (IH H2). reflexivity.
    - cbn [String.append]. do 5 f_equal.
      clear. induction mime as [|c r IH]; [reflexivity|].
      cbn [String.append]. f_equal. exact IH. }
  rewrite Hsplit. cbn [nth nth_error].
  assert (Hm : mimeMatch ("data:" ++ mime ++ String ";" "base64") = Some mime).
  { cbn [String.append mimeMatch Ascii.eqb Bool.eqb].
    rewrite (lazy_until_semicolon_app mime "base64" Hs Hl). reflexivity. }
  rewrite Hm, Hatob. cbn zeta. rewrite fill_bytes_all. reflexivity.
Qed.

Lemma dataURLtoFile_decodes_witness :
  dataURLtoFile (fun s => if String.eqb s "QUI=" then Some "AB"%string else None)
    "data:image/png;base64,QUI=" "mask.png"
  = inl (mkByteFile [65; 66] "mask.png" "image/png").
Proof.
  apply (dataURLtoFile_decodes _ "image/png" "QUI=" "mask.png" "AB"); reflexivity.
Defined.

(** X22. [dataURLtoFile] throws its error, and never calls for a decoding,
    on a URL that has no semicolon before its first comma. *)
Theorem dataURLtoFile_invalid (atob : string -> option string)
    (header rest filename : string) :
  lacks "," header = true ->
  lacks ";" header = true ->
  dataURLtoFile atob header filename = inr (Error "Invalid data URL") /\
  dataURLtoFile atob (header ++ String "," rest) filename = inr (Error "Invalid data URL").
Proof.
  intros Hc Hs. unfold dataURLtoFile.
  rewrite (split_lacks _ _ Hc), (split_cons _ _ _ Hc).
  cbn [nth]. rewrite (mimeMatch_lacks_semicolon _ Hs). split; reflexivity.
Qed.

Lemma dataURLtoFile_invalid_witness :
  dataURLtoFile (fun s => Some s) "data:," "mask.png" = inr (Error "Invalid data URL").
Proof.
  apply (dataURLtoFile_invalid _ "data:" EmptyString "mask.png"); reflexivity.
Defined.

End StudioProperties.
